(** * Demand-responsive dispatch: assignment and sequencing engines

    A shallow embedding of [routePlanning/dynamic_route_optimizer.py]
    (class [DynamicRouteOptimizer]) and [routePlanning/route_calculator_lambda.py]
    (class [RouteCalculator]), followed by the properties of the two engines.

    Conventions of the embedding.
    - A Python [dict] with fixed keys is a record; a key that may be absent
      is an [option] field or a dedicated constructor.
    - A Python [float] is a binary64 [float] of the kernel.
    - A naive [datetime] is an integer count of microseconds, counted from
      [datetime.fromtimestamp(0)].
    - A call that may raise returns in [Exc]; the external collaborators
      (stop store, route-geometry provider, [strptime]) are section
      variables. *)

From Stdlib Require Import Floats.PrimFloat Numbers.Cyclic.Int63.Uint63.
From Stdlib Require Floats.FloatAxioms Floats.SpecFloat Floats.FloatOps.
From Stdlib Require Import ZArith QArith Qabs List Lia Permutation Sorted.
From stdpp Require Import gmap strings list.

Set Warnings "-inexact-float".

(** ** The pieces of the Python runtime the engines rely on *)

Module Py.

Inductive exn : Type :=
| TypeError | KeyError | ValueError | IndexError | OverflowError.

Inductive Exc (A : Type) : Type :=
| Ok (a : A)
| Raise (e : exn).

Arguments Ok {A} a.
Arguments Raise {A} e.

#[global] Instance Exc_ret : MRet Exc := @Ok.

#[global] Instance Exc_bind : MBind Exc :=
  λ A B f m, match m with Ok a => f a | Raise e => Raise e end.

Definition datetime : Type := Z.

(** The values [sorted] meets as keys in this program. *)
Inductive sort_key : Type :=
| KStr (s : string)
| KNone
| KNum (z : Z)
| KDatetime (t : datetime).

(** [a < b] between keys: defined inside one type, [TypeError] across types
    and on [None]. *)
Definition py_lt (a b : sort_key) : Exc bool :=
  match a, b with
  | KStr s, KStr t => Ok (String.ltb s t)
  | KNum x, KNum y => Ok (x <? y)%Z
  | KDatetime s, KDatetime t => Ok (s <? t)%Z
  | _, _ => Raise TypeError
  end.

Definition int_lt (a b : nat) : Exc bool := Ok (a <? b)%nat.

Section Sorted.
Context {A K : Type}.
Variable lt : K → K → Exc bool.
Variable key : A → K.

(** Stable insertion: [x] goes in front of the first element whose key is
    strictly greater.  A comparison that raises aborts the sort. *)
Fixpoint insert (x : A) (l : list A) : Exc (list A) :=
  match l with
  | [] => Ok [x]
  | y :: l' =>
      b ← lt (key x) (key y);
      if b : bool then Ok (x :: y :: l')
      else (r ← insert x l'; Ok (y :: r))
  end.

Fixpoint sorted_from (acc l : list A) : Exc (list A) :=
  match l with
  | [] => Ok acc
  | x :: l' => acc' ← insert x acc; sorted_from acc' l'
  end.

(** [sorted(l, key=key)] and [l.sort(key=key)]: a stable sort whose
    comparisons may raise.  CPython's list sort asks for other comparisons
    than this insertion sort; on the keys of [py_lt] both return on the
    same lists (see [PyFacts.sorted_uniform] and
    [PyFacts.sorted_uniform_returns]) and, being stable, with the same
    order. *)
Definition sorted (l : list A) : Exc (list A) := sorted_from [] l.

End Sorted.

Section Min.
Context {A : Type}.
Variable key : A → Exc nat.

Fixpoint min_from (best : A) (kbest : nat) (l : list A) : Exc A :=
  match l with
  | [] => Ok best
  | x :: l' =>
      kx ← key x;
      if (kx <? kbest)%nat then min_from x kx l' else min_from best kbest l'
  end.

(** [min(l, key=key)]: the first element of least key, [ValueError] on an
    empty list. *)
Definition min (l : list A) : Exc A :=
  match l with
  | [] => Raise ValueError
  | x :: l' => kx ← key x; min_from x kx l'
  end.

End Min.

(** [float(n)] for a length. *)
Definition float_of_nat (n : nat) : float :=
  PrimFloat.of_uint63 (Uint63.of_Z (Z.of_nat n)).

(** [float(z)] for a non-negative integer. *)
Definition float_of_Z (z : Z) : float :=
  PrimFloat.of_uint63 (Uint63.of_Z z).

(** [l[1:-1]] *)
Definition slice_1_m1 {A : Type} (l : list A) : list A := removelast (tail l).

End Py.

Import Py.

(** ** Data model *)

(** A coordinate as the code carries it: [[lon, lat]]. *)
Definition Coord : Type := (float * float)%type.

(** The value under ['requestedPickupAt'] once [get_requests] has run:
    the key may be absent, hold [None], hold the number [0] (left in place
    because it is falsy) or hold a [datetime].  An empty string left in
    place is read as [Missing]: [.get(key)] is falsy and [.get(key, '')] is
    [''] for both. *)
Inductive pickup_at : Type :=
| Missing
| Null
| Zero
| At (t : datetime).

Record Request : Type := {
  requestId : option string;
  originStopId : string;
  destStopId : string;
  requestedPickupAt : pickup_at
}.

(** [request.get('requestedPickupAt')] when it is truthy. *)
Definition instant (r : Request) : option datetime :=
  match requestedPickupAt r with
  | At t => Some t
  | _ => None
  end.

Record Vehicle : Type := {
  vehicleId : string;
  capacity : option nat;
  longitude : option float;
  latitude : option float
}.

(** An item of the stops table. *)
Record StopItem : Type := {
  stop_lat : option float;
  stop_lon : option float
}.

Inductive stop_type : Type := pickup | dropoff.

Record StopEvent : Type := {
  stop_kind : stop_type;
  stop_requestId : option string;
  stopId : string;
  coords : Coord;
  priority : nat
}.

Record Leg : Type := {
  leg_distance : float;
  leg_duration : float;
  leg_geometry : list Coord
}.

(** The answer of the route-geometry provider. *)
Record ProviderResponse : Type := {
  Legs : list Leg;
  Summary_Distance : float;
  Summary_DurationSeconds : float
}.

Record RouteResult : Type := {
  route : list Leg;
  distance : float;
  duration : float;
  waypoints : option (list Coord);
  sequence : option (list StopEvent)
}.

(** ** Feasibility checks ([dynamic_route_optimizer.py], lines 114-142) *)

Module Feasibility.

(** [timedelta.total_seconds()] of a span given in microseconds, as the
    exact quotient; the float Python computes is its correctly rounded
    value and compares with an integer number of seconds in the same way
    for any span below 2^53 microseconds. *)
Definition total_seconds (span : Z) : Q := span # 1000000.

Definition Qgt_bool (a b : Q) : bool := negb (Qle_bool a b).

Fixpoint waiting_loop (request_dt : datetime) (current_requests : list Request)
    (max_wait_minutes : Z) : bool :=
  match current_requests with
  | [] => false
  | existing :: rest =>
      match instant existing with
      | None => waiting_loop request_dt rest max_wait_minutes
      | Some existing_dt =>
          let time_diff := Qabs (total_seconds (request_dt - existing_dt)) in
          if Qgt_bool time_diff (inject_Z (max_wait_minutes * 60))
          then true
          else waiting_loop request_dt rest max_wait_minutes
      end
  end.

Definition _violates_waiting_time (request : Request)
    (current_requests : list Request) (max_wait_minutes : Z) : bool :=
  match instant request with
  | None => false
  | Some request_dt => waiting_loop request_dt current_requests max_wait_minutes
  end.

Definition _violates_travel_duration (request : Request)
    (current_requests : list Request) (max_travel_minutes : Z) : bool :=
  match current_requests with
  | [] => false
  | _ =>
      let all_requests := current_requests ++ [request] in
      let total_stops := (Z.of_nat (length all_requests) * 2)%Z in
      let estimated_duration := (total_stops * 3)%Z in
      (max_travel_minutes <? estimated_duration)%Z
  end.

End Feasibility.

(** ** Cost model ([dynamic_route_optimizer.py], lines 144-178 and 645-753) *)

Module Cost.

Local Open Scope float_scope.

(** [float(z)] for any integer. *)
Definition float_of_int (z : Z) : float :=
  if (z <? 0)%Z then - Py.float_of_Z (- z) else Py.float_of_Z z.

(** [min(xs)] and [max(xs)] over floats, as the builtin scans them. *)
Definition float_min (x : float) (xs : list float) : float :=
  fold_left (λ m y, if y <? m then y else m) xs x.

Definition float_max (x : float) (xs : list float) : float :=
  fold_left (λ m y, if m <? y then y else m) xs x.

(** [** 2] and [** 0.5] are read as the IEEE square and square root. *)
Definition _calculate_distance (pos1 pos2 : Coord) : float :=
  let dx := fst pos1 - fst pos2 in
  let dy := snd pos1 - snd pos2 in
  PrimFloat.sqrt (dx * dx + dy * dy).

(** The stop-sharing bonus, written once over the arithmetic it uses:
    [zero], subtraction and the two literals.  It is run on floats in the
    cost and read over the rationals where exact sums are stated. *)
Section GeoClustering.
Context {N : Type}.
Variables (zero : N) (sub : N → N → N) (two_tenths one_tenth : N).

Definition geo_step (request : Request) (shared_stops_bonus : N)
    (existing : Request) : N :=
  let request_origin := originStopId request in
  let request_dest := destStopId request in
  let existing_origin := originStopId existing in
  let existing_dest := destStopId existing in
  let b1 := if String.eqb request_origin existing_origin
            then sub shared_stops_bonus two_tenths else shared_stops_bonus in
  let b2 := if String.eqb request_dest existing_dest
            then sub b1 two_tenths else b1 in
  if String.eqb request_origin existing_dest
     || String.eqb request_dest existing_origin
  then sub b2 one_tenth else b2.

Definition geo_clustering_bonus (request : Request)
    (current_requests : list Request) : N :=
  match current_requests with
  | [] => zero
  | _ => fold_left (geo_step request) current_requests zero
  end.

End GeoClustering.

Definition _calculate_geo_clustering_bonus : Request → list Request → float :=
  geo_clustering_bonus 0 PrimFloat.sub 0.2 0.1.


(** [sum(time_diffs)] is read as left-to-right addition from [0], and
    [total_seconds()] as the microsecond span divided by [1e6]. *)
Definition _calculate_time_clustering_bonus (request : Request)
    (current_requests : list Request) : float :=
  match current_requests with
  | [] => 0
  | _ =>
      match instant request with
      | None => 0
      | Some request_dt =>
          let time_diffs :=
            omap (λ existing,
                    existing_dt ← instant existing;
                    Some (Py.float_of_Z (Z.abs (request_dt - existing_dt))
                          / 1000000 / 60))
                 current_requests in
          match time_diffs with
          | [] => 0
          | _ =>
              let avg_time_diff :=
                fold_left PrimFloat.add time_diffs 0
                / Py.float_of_nat (length time_diffs) in
              let x := (10 - avg_time_diff) * 0.02 in
              if 0 <? x then - x else 0
          end
      end
  end.

Section WithStops.
Variable stops_table : gmap string StopItem.

(** [get_stop_coords] of the optimizer: a stop that is absent, or whose
    coordinates are both zero, does not resolve. *)
Definition get_stop_coords (stop_id : string) : option Coord :=
  let item := stops_table !! stop_id in
  let lat := default 0 (item ≫= stop_lat) in
  let lon := default 0 (item ≫= stop_lon) in
  if (lat =? 0) && (lon =? 0) then None else Some (lon, lat).

Definition _calculate_route_efficiency_penalty (request : Request)
    (current_requests : list Request) : Exc float :=
  match current_requests with
  | [] => Ok 0
  | _ =>
      let origin := get_stop_coords (originStopId request) in
      let dest := get_stop_coords (destStopId request) in
      let existing_coords :=
        flat_map (λ req,
                    option_list (get_stop_coords (originStopId req))
                    ++ option_list (get_stop_coords (destStopId req)))
                 current_requests in
      match existing_coords with
      | [] => Ok 0
      | c :: cs =>
          let min_lon := float_min (fst c) (fst <$> cs) in
          let max_lon := float_max (fst c) (fst <$> cs) in
          let min_lat := float_min (snd c) (snd <$> cs) in
          let max_lat := float_max (snd c) (snd <$> cs) in
          let outside (p : Coord) :=
            (fst p <? min_lon) || (max_lon <? fst p)
            || (snd p <? min_lat) || (max_lat <? snd p) in
          match origin, dest with
          | Some o, Some d =>
              let p1 := if outside o then 0 + 0.3 else 0 in
              let p2 := if outside d then p1 + 0.3 else p1 in
              Ok p2
          | _, _ => Raise TypeError
          end
      end
  end.

Definition _calculate_assignment_cost (request : Request) (vehicle : Vehicle)
    (current_requests : list Request) : Exc float :=
  match get_stop_coords (originStopId request),
        get_stop_coords (destStopId request) with
  | Some origin_coords, Some dest_coords =>
      let vehicle_pos :=
        (default 0 (longitude vehicle), default 0 (latitude vehicle)) in
      let distance_to_pickup := _calculate_distance vehicle_pos origin_coords in
      let trip_distance := _calculate_distance origin_coords dest_coords in
      route_efficiency_penalty ←
        _calculate_route_efficiency_penalty request current_requests;
      let utilization_bonus :=
        float_of_int (- Z.of_nat (length current_requests)) * 0.1 in
      let time_clustering_bonus :=
        _calculate_time_clustering_bonus request current_requests in
      let geo_clustering_bonus :=
        _calculate_geo_clustering_bonus request current_requests in
      Ok (distance_to_pickup * 2.0
          + trip_distance * 0.5
          + route_efficiency_penalty
          + utilization_bonus
          + time_clustering_bonus
          + geo_clustering_bonus)
  | _, _ => Ok infinity
  end.

End WithStops.

End Cost.

(** ** Assignment engine ([dynamic_route_optimizer.py], lines 64-112) *)

Module Assignment.

Import Feasibility Cost.

(** One placement of the main loop, kept as a ghost log beside the
    dictionary: which request went where, whether the fallback branch
    ([else] of [if best_vehicle]) placed it, and whether some vehicle had
    passed the three feasibility checks when the decision was taken. *)
Record Placement : Type := {
  placed : Request;
  placed_on : string;
  forced : bool;
  feasible_seen : bool
}.

(** [d[k]]: [KeyError] on an absent key. *)
Definition getitem (assignments : gmap string (list Request))
    (vehicle_id : string) : Exc (list Request) :=
  match assignments !! vehicle_id with
  | Some l => Ok l
  | None => Raise KeyError
  end.

(** [assignments[vehicle_id].append(request)] *)
Definition append_to (assignments : gmap string (list Request))
    (vehicle_id : string) (request : Request)
    : Exc (gmap string (list Request)) :=
  l ← getitem assignments vehicle_id;
  Ok (<[vehicle_id := l ++ [request]]> assignments).

(** [vehicle.get('capacity', 20)] *)
Definition capacity_of (vehicle : Vehicle) : nat := default 20 (capacity vehicle).

Definition get_pickup_datetime (req : Request) : sort_key :=
  KDatetime (default 0%Z (instant req)).

Section WithStops.
Variable stops_table : gmap string StopItem.
Variables max_wait_minutes max_travel_minutes : Z.

(** The inner [for vehicle in vehicles] loop.  It carries [best_vehicle]
    and [min_cost]; [seen] is ghost and records that a vehicle reached the
    cost computation. *)
Fixpoint best_vehicle_loop (vehicles : list Vehicle)
    (assignments : gmap string (list Request)) (request : Request)
    (best_vehicle : option Vehicle) (min_cost : float) (seen : bool)
    : Exc (option Vehicle * float * bool) :=
  match vehicles with
  | [] => Ok (best_vehicle, min_cost, seen)
  | vehicle :: rest =>
      let vehicle_id := vehicleId vehicle in
      current_requests ← getitem assignments vehicle_id;
      if (capacity_of vehicle <=? length current_requests)%nat then
        best_vehicle_loop rest assignments request best_vehicle min_cost seen
      else if _violates_waiting_time request current_requests max_wait_minutes then
        best_vehicle_loop rest assignments request best_vehicle min_cost seen
      else if _violates_travel_duration request current_requests max_travel_minutes then
        best_vehicle_loop rest assignments request best_vehicle min_cost seen
      else
        cost ← _calculate_assignment_cost stops_table request vehicle current_requests;
        if (cost <? min_cost)%float then
          best_vehicle_loop rest assignments request (Some vehicle) cost true
        else
          best_vehicle_loop rest assignments request best_vehicle min_cost true
  end.

(** The body of [for request in sorted_requests]. *)
Definition assign_step (vehicles : list Vehicle)
    (st : gmap string (list Request) * list Placement) (request : Request)
    : Exc (gmap string (list Request) * list Placement) :=
  let '(assignments, log) := st in
  match get_stop_coords stops_table (originStopId request) with
  | None => Ok st
  | Some origin_coords =>
      '(best_vehicle, _, seen) ←
        best_vehicle_loop vehicles assignments request None infinity false;
      match best_vehicle with
      | Some best =>
          assignments' ← append_to assignments (vehicleId best) request;
          Ok (assignments',
              log ++ [{| placed := request; placed_on := vehicleId best;
                         forced := false; feasible_seen := seen |}])
      | None =>
          least_loaded ←
            Py.min (λ v, l ← getitem assignments (vehicleId v); Ok (length l))
                   vehicles;
          assignments' ← append_to assignments (vehicleId least_loaded) request;
          Ok (assignments',
              log ++ [{| placed := request; placed_on := vehicleId least_loaded;
                         forced := true; feasible_seen := seen |}])
      end
  end.

Fixpoint assign_loop (vehicles : list Vehicle)
    (st : gmap string (list Request) * list Placement)
    (sorted_requests : list Request)
    : Exc (gmap string (list Request) * list Placement) :=
  match sorted_requests with
  | [] => Ok st
  | request :: rest =>
      st' ← assign_step vehicles st request;
      assign_loop vehicles st' rest
  end.

(** The whole function together with its ghost log. *)
Definition assign_with_log (requests : list Request) (vehicles : list Vehicle)
    : Exc (gmap string (list Request) * list Placement) :=
  let assignments : gmap string (list Request) :=
    list_to_map ((λ vehicle, (vehicleId vehicle, [])) <$> vehicles) in
  sorted_requests ← Py.sorted py_lt get_pickup_datetime requests;
  assign_loop vehicles (assignments, []) sorted_requests.

Definition assign_requests_to_vehicles (requests : list Request)
    (vehicles : list Vehicle) : Exc (gmap string (list Request)) :=
  st ← assign_with_log requests vehicles;
  Ok (fst st).

End WithStops.

End Assignment.

(** ** Request store access ([dynamic_route_optimizer.py], lines 21-57) *)

Module Store.

(** What the scan may hold under ['requestedPickupAt']. *)
Inductive raw_pickup : Type :=
| RawMissing
| RawNull
| RawText (s : string)
| RawNumber (z : Z).

Record Item : Type := {
  item_requestId : option string;
  item_originStopId : string;
  item_destStopId : string;
  item_requestedPickupAt : raw_pickup
}.

Section WithClock.
(** [datetime.strptime(s, '%Y-%m-%d %H:%M:%S')]; [None] is [ValueError]. *)
Variable strptime : string → option datetime.
(** [datetime.fromtimestamp], which may raise on a stamp out of range. *)
Variable fromtimestamp : Z → Exc datetime.

(** The conversion loop: falsy values are left as they are. *)
Definition convert_pickup (raw : raw_pickup) : Exc pickup_at :=
  match raw with
  | RawMissing => Ok Missing
  | RawNull => Ok Null
  | RawText s =>
      if String.eqb s "" then Ok Missing
      else match strptime s with
           | Some t => Ok (At t)
           | None => Ok Null
           end
  | RawNumber z =>
      if (z =? 0)%Z then Ok Zero
      else (t ← fromtimestamp z; Ok (At t))
  end.

Definition convert_item (item : Item) : Exc Request :=
  p ← convert_pickup (item_requestedPickupAt item);
  Ok {| requestId := item_requestId item;
        originStopId := item_originStopId item;
        destStopId := item_destStopId item;
        requestedPickupAt := p |}.

Fixpoint convert_items (items : list Item) : Exc (list Request) :=
  match items with
  | [] => Ok []
  | item :: rest =>
      req ← convert_item item;
      reqs ← convert_items rest;
      Ok (req :: reqs)
  end.

(** The filtering loop with its [if]/[elif] chain. *)
Fixpoint filter_loop (start_time end_time : option datetime)
    (requests filtered : list Request) : list Request :=
  match requests with
  | [] => filtered
  | req :: rest =>
      let filtered' :=
        match instant req with
        | Some pickup_dt =>
            match start_time, end_time with
            | Some s, Some e =>
                if (s <=? pickup_dt)%Z && (pickup_dt <=? e)%Z
                then filtered ++ [req] else filtered
            | Some s, None =>
                if (s <=? pickup_dt)%Z then filtered ++ [req] else filtered
            | None, Some e =>
                if (pickup_dt <=? e)%Z then filtered ++ [req] else filtered
            | None, None => filtered ++ [req]
            end
        | None => filtered
        end in
      filter_loop start_time end_time rest filtered'
  end.

Definition get_requests (items : list Item)
    (start_time end_time : option datetime) : Exc (list Request) :=
  requests ← convert_items items;
  match start_time, end_time with
  | None, None => Ok requests
  | _, _ => Ok (filter_loop start_time end_time requests [])
  end.

End WithClock.

End Store.

(** ** Sequencing engine
    ([dynamic_route_optimizer.py], lines 1024-1099, and
     [route_calculator_lambda.py], lines 43-131) *)

Module Sequencing.

Local Open Scope float_scope.

(** The stop ordering, which the two files carry statement for statement;
    it is written once over the request representation ([R] with its
    accessors) and the stop resolver. *)
Section Build.
Context {R : Type}.
Variables (rid : R → option string) (origin dest : R → string).
Variable pickup_key : R → sort_key.
Variable resolve : string → option Coord.

(** [for i, req in enumerate(sorted_requests)]: pickups in time order. *)
Fixpoint add_pickups (i : nat) (sorted_requests : list R)
    (all_stops : list StopEvent) (pickup_order : gmap (option string) nat)
    : list StopEvent * gmap (option string) nat :=
  match sorted_requests with
  | [] => (all_stops, pickup_order)
  | req :: rest =>
      match resolve (origin req) with
      | Some o =>
          add_pickups (S i) rest
            (all_stops ++ [{| stop_kind := pickup; stop_requestId := rid req;
                              stopId := origin req; coords := o;
                              priority := i |}])
            (<[rid req := i]> pickup_order)
      | None => add_pickups (S i) rest all_stops pickup_order
      end
  end.

(** [for req in sorted_requests]: dropoffs. *)
Fixpoint add_dropoffs (sorted_requests : list R)
    (pickup_order : gmap (option string) nat) (all_stops : list StopEvent)
    : list StopEvent :=
  match sorted_requests with
  | [] => all_stops
  | req :: rest =>
      match resolve (dest req) with
      | Some d =>
          add_dropoffs rest pickup_order
            (all_stops ++ [{| stop_kind := dropoff; stop_requestId := rid req;
                              stopId := dest req; coords := d;
                              priority :=
                                default 999%nat (pickup_order !! rid req) + 100 |}])
      | None => add_dropoffs rest pickup_order all_stops
      end
  end.

(** From the requests to [all_stops] sorted by priority. *)
Definition build_stops (requests : list R) : Exc (list StopEvent) :=
  sorted_requests ← Py.sorted py_lt pickup_key requests;
  let '(all_stops, pickup_order) := add_pickups 0 sorted_requests [] ∅ in
  let all_stops := add_dropoffs sorted_requests pickup_order all_stops in
  Py.sorted int_lt priority all_stops.

End Build.

(** [if len(waypoints) > 23: waypoints = waypoints[:23]; all_stops = all_stops[:23]] *)
Definition limit_waypoints (waypoints : list Coord) (all_stops : list StopEvent)
    : list Coord * list StopEvent :=
  if (23 <? length waypoints)%nat
  then (take 23 waypoints, take 23 all_stops)
  else (waypoints, all_stops).

Section Provider.
(** [location_client.calculate_route] with departure, destination and
    via-points; [None] stands for any exception raised inside the [try]. *)
Variable calculate_route : Coord → Coord → list Coord → option ProviderResponse.

Definition call_provider (waypoints : list Coord) : option ProviderResponse :=
  match head waypoints, last waypoints with
  | Some departure, Some destination =>
      calculate_route departure destination
        (if (2 <? length waypoints)%nat then Py.slice_1_m1 waypoints else [])
  | _, _ => None
  end.

(** The [try]/[except] at the end of both functions. *)
Definition route_or_degrade (waypoints : list Coord)
    (all_stops : list StopEvent) : RouteResult :=
  match call_provider waypoints with
  | Some response =>
      {| route := Legs response;
         distance := Summary_Distance response;
         duration := Summary_DurationSeconds response;
         waypoints := Some waypoints;
         sequence := Some all_stops |}
  | None =>
      {| route := []; distance := 0; duration := 0;
         waypoints := Some waypoints; sequence := Some all_stops |}
  end.

End Provider.

(** *** The optimizer's local path *)

Module Local.

(** [r.get('requestedPickupAt', '')] *)
Definition pickup_key (r : Request) : sort_key :=
  match requestedPickupAt r with
  | Missing => KStr ""
  | Null => KNone
  | Zero => KNum 0
  | At t => KDatetime t
  end.

Section WithServices.
Variable stops_table : gmap string StopItem.
Variable calculate_route : Coord → Coord → list Coord → option ProviderResponse.

Definition all_stops_of (requests : list Request) : Exc (list StopEvent) :=
  build_stops requestId originStopId destStopId pickup_key
    (Cost.get_stop_coords stops_table) requests.

Definition _calculate_route_locally (vehicle_id : string)
    (requests : list Request) : Exc RouteResult :=
  match requests with
  | [] =>
      Ok {| route := []; distance := 0; duration := 0;
            waypoints := Some []; sequence := Some [] |}
  | _ =>
      all_stops ← all_stops_of requests;
      let waypoints := coords <$> all_stops in
      if (length waypoints <? 2)%nat then
        Ok {| route := []; distance := 0; duration := 0;
              waypoints := Some waypoints; sequence := Some all_stops |}
      else
        let '(waypoints, all_stops) := limit_waypoints waypoints all_stops in
        Ok (route_or_degrade calculate_route waypoints all_stops)
  end.

Definition optimize_route_with_location_service (vehicle_id : string)
    (requests : list Request) : Exc RouteResult :=
  _calculate_route_locally vehicle_id requests.

End WithServices.

End Local.

(** *** The remote route calculator *)

Module Remote.

(** The value under ['requestedPickupAt'] in the JSON event. *)
Inductive json_pickup : Type :=
| JAbsent
| JNull
| JText (s : string)
| JNumber (z : Z).

Record JsonRequest : Type := {
  j_requestId : option string;
  j_originStopId : string;
  j_destStopId : string;
  j_requestedPickupAt : json_pickup
}.

(** [r.get('requestedPickupAt', '')] *)
Definition pickup_key (r : JsonRequest) : sort_key :=
  match j_requestedPickupAt r with
  | JAbsent => KStr ""
  | JNull => KNone
  | JText s => KStr s
  | JNumber z => KNum z
  end.

Section WithServices.
Variable stops_table : gmap string StopItem.
Variable calculate_route : Coord → Coord → list Coord → option ProviderResponse.

(** [RouteCalculator.get_stop_coords]: no zero test; a missing attribute
    raises inside the [try] and yields [None]. *)
Definition get_stop_coords (stop_id : string) : option Coord :=
  item ← stops_table !! stop_id;
  lon ← stop_lon item;
  lat ← stop_lat item;
  Some (lon, lat).

Definition all_stops_of (requests : list JsonRequest) : Exc (list StopEvent) :=
  build_stops j_requestId j_originStopId j_destStopId pickup_key
    get_stop_coords requests.

Definition optimize_route (vehicle_id : string)
    (requests : list JsonRequest) : Exc RouteResult :=
  match requests with
  | [] =>
      Ok {| route := []; distance := 0; duration := 0;
            waypoints := None; sequence := None |}
  | _ =>
      all_stops ← all_stops_of requests;
      let waypoints := coords <$> all_stops in
      if (length waypoints <? 2)%nat then
        Ok {| route := []; distance := 0; duration := 0;
              waypoints := None; sequence := None |}
      else
        let '(waypoints, all_stops) := limit_waypoints waypoints all_stops in
        Ok (route_or_degrade calculate_route waypoints all_stops)
  end.

End WithServices.

End Remote.

End Sequencing.

(** ** The run as a whole

    [DynamicRouteOptimizer.run_optimization]
    ([dynamic_route_optimizer.py], lines 755-867),
    [calculate_route_via_lambda] (lines 180-231) and [lambda_handler]
    ([route_calculator_lambda.py], lines 6-34).  The store scans, the two
    [strptime] formats and the map rendering are taken as given. *)

Module Orchestration.

Import Assignment Store Sequencing.

Local Open Scope float_scope.

(** [{'route': [], 'distance': 0, 'duration': 0}], the dictionary used
    when the sequencing of one vehicle raises. *)
Definition default_route : RouteResult :=
  {| route := []; distance := 0; duration := 0;
     waypoints := None; sequence := None |}.

(** What [run_optimization] returns: assignments, routes, map file. *)
Definition RunResult : Type :=
  (gmap string (list Request) * gmap string RouteResult * option string)%type.

(** [{}, {}, None] *)
Definition nothing : RunResult := (∅, ∅, None).

Section WithServices.
(** [datetime.strptime(s, '%Y-%m-%d %H:%M')]; [None] is [ValueError]. *)
Variable strptime_minutes : string → option datetime.
Variable strptime : string → option datetime.
Variable fromtimestamp : Z → Exc datetime.
(** [requests_table.scan()['Items']] and [get_vehicles()]. *)
Variable scan_requests : Exc (list Item).
Variable scan_vehicles : Exc (list Vehicle).
Variable stops_table : gmap string StopItem.
Variable calculate_route : Coord → Coord → list Coord → option ProviderResponse.
(** [create_route_map]: the name of the file written, if any. *)
Variable create_route_map :
  gmap string (list Request) → gmap string RouteResult → list Vehicle →
  Exc (option string).

(** One bound of the filter: absent or empty text gives no bound; the
    outer [None] is a text that does not parse. *)
Definition parse_bound (text : option string) : option (option datetime) :=
  match text with
  | None => Some None
  | Some s =>
      if String.eqb s "" then Some None
      else match strptime_minutes s with
           | Some t => Some (Some t)
           | None => None
           end
  end.

(** [if start_time and end_time: if start_time > end_time: swap] *)
Definition order_bounds (start_time end_time : option datetime)
    : option datetime * option datetime :=
  match start_time, end_time with
  | Some s, Some e => if (e <? s)%Z then (Some e, Some s) else (Some s, Some e)
  | _, _ => (start_time, end_time)
  end.

(** The loop over [assignments.items()] with its [try]/[except]. *)
Definition route_vehicles (assignments : gmap string (list Request))
    : gmap string RouteResult :=
  map_imap
    (λ vehicle_id vehicle_requests,
       match vehicle_requests with
       | [] => None
       | _ =>
           Some match Local.optimize_route_with_location_service stops_table
                        calculate_route vehicle_id vehicle_requests with
                | Ok r => r
                | Raise _ => default_route
                end
       end)
    assignments.

Definition run_optimization (start_datetime end_datetime : option string)
    (max_wait_minutes max_travel_minutes : Z) : RunResult :=
  match parse_bound start_datetime with
  | None => nothing
  | Some start_time =>
  match parse_bound end_datetime with
  | None => nothing
  | Some end_time =>
  let '(start_time, end_time) := order_bounds start_time end_time in
  match (items ← scan_requests;
         get_requests strptime fromtimestamp items start_time end_time) with
  | Raise _ => nothing
  | Ok requests =>
  match scan_vehicles with
  | Raise _ => nothing
  | Ok vehicles =>
  match requests with
  | [] =>
      let empty_assignments : gmap string (list Request) :=
        list_to_map ((λ vehicle, (vehicleId vehicle, [])) <$> vehicles) in
      match create_route_map empty_assignments ∅ vehicles with
      | Ok map_file => (empty_assignments, ∅, map_file)
      | Raise _ => nothing
      end
  | _ =>
  match vehicles with
  | [] => nothing
  | _ =>
  match assign_requests_to_vehicles stops_table max_wait_minutes
          max_travel_minutes requests vehicles with
  | Raise _ => nothing
  | Ok assignments =>
      let routes := route_vehicles assignments in
      match create_route_map assignments routes vehicles with
      | Ok map_file => (assignments, routes, map_file)
      | Raise _ => (assignments, routes, None)
      end
  end end end end end end end.

(** *** The remote calculator seen from both ends *)

Record Event : Type := {
  ev_vehicle_id : option string;
  ev_requests : option (list Remote.JsonRequest)
}.

(** The answer of the handler by status code; the JSON body is kept as
    the result it encodes. *)
Inductive Response : Type :=
| Response200 (body : RouteResult)
| Response400
| Response500 (e : exn).

Definition lambda_handler (event : Event) : Response :=
  let requests := default [] (ev_requests event) in
  match ev_vehicle_id event with
  | None => Response400
  | Some vehicle_id =>
      if String.eqb vehicle_id "" then Response400
      else match requests with
           | [] => Response400
           | _ =>
               match Remote.optimize_route stops_table calculate_route
                       vehicle_id requests with
               | Ok route_result => Response200 route_result
               | Raise e => Response500 e
               end
           end
  end.

(** What the invocation of the remote function may hand back. *)
Inductive LambdaPayload : Type :=
| Returned (r : Response)
| FunctionError
| Direct (r : RouteResult).

Variable strftime : datetime → string.
Variable invoke : Event → Exc LambdaPayload.

(** The copy of a request sent over: a [datetime] becomes its text. *)
Definition serialize (req : Request) : Remote.JsonRequest :=
  {| Remote.j_requestId := requestId req;
     Remote.j_originStopId := originStopId req;
     Remote.j_destStopId := destStopId req;
     Remote.j_requestedPickupAt :=
       match requestedPickupAt req with
       | Missing => Remote.JAbsent
       | Null => Remote.JNull
       | Zero => Remote.JNumber 0
       | At t => Remote.JText (strftime t)
       end |}.

Definition calculate_route_via_lambda (vehicle_id : string)
    (requests : list Request) : Exc RouteResult :=
  match invoke {| ev_vehicle_id := Some vehicle_id;
                  ev_requests := Some (serialize <$> requests) |} with
  | Ok (Returned (Response200 route_result)) => Ok route_result
  | Ok (Returned _) => Ok default_route
  | Ok FunctionError =>
      Local._calculate_route_locally stops_table calculate_route
        vehicle_id requests
  | Ok (Direct result) => Ok result
  | Raise _ =>
      Local._calculate_route_locally stops_table calculate_route
        vehicle_id requests
  end.

End WithServices.

End Orchestration.

(** * Properties *)

(** ** Facts about the runtime model *)

Module PyFacts.

Lemma bind_Ok {A B : Type} (m : Exc A) (f : A → Exc B) (b : B) :
  m ≫= f = Ok b ↔ ∃ a, m = Ok a ∧ f a = Ok b.
Proof.
  destruct m as [a|e]; cbn.
  - split; [eauto | intros (a' & [= ->] & H); exact H].
  - split; [discriminate | intros (a' & [=] & _)].
Qed.

Section SortedFacts.
Context {A K : Type}.
Variable lt : K → K → Exc bool.
Variable key : A → K.

Lemma insert_perm (x : A) (l r : list A) :
  Py.insert lt key x l = Ok r → r ≡ₚ x :: l.
Proof.
  revert r; induction l as [|y l IH]; intros r; cbn.
  - intros [= <-]. reflexivity.
  - intros H. apply bind_Ok in H as (b & _ & H). destruct b.
    + injection H as <-. reflexivity.
    + apply bind_Ok in H as (r' & Hr' & [= <-]).
      rewrite (IH _ Hr'). apply perm_swap.
Qed.

Lemma sorted_from_perm (acc l r : list A) :
  Py.sorted_from lt key acc l = Ok r → r ≡ₚ acc ++ l.
Proof.
  revert acc r; induction l as [|x l IH]; intros acc r; cbn.
  - intros [= <-]. by rewrite app_nil_r.
  - intros H. apply bind_Ok in H as (acc' & Hins & H).
    rewrite (IH _ _ H), (insert_perm _ _ _ Hins).
    cbn. apply Permutation_middle.
Qed.

Lemma sorted_perm (l r : list A) : Py.sorted lt key l = Ok r → r ≡ₚ l.
Proof. apply sorted_from_perm. Qed.

(** When every comparison is defined the sort returns. *)
Hypothesis lt_total : ∀ x y, ∃ b, lt (key x) (key y) = Ok b.

Lemma insert_total (x : A) (l : list A) : ∃ r, Py.insert lt key x l = Ok r.
Proof.
  induction l as [|y l [r IH]]; cbn; [eauto|].
  destruct (lt_total x y) as [b ->]; cbn.
  destruct b; [eauto|]. rewrite IH; cbn; eauto.
Qed.

Lemma sorted_from_total (acc l : list A) :
  ∃ r, Py.sorted_from lt key acc l = Ok r.
Proof.
  revert acc; induction l as [|x l IH]; intros acc; cbn; [eauto|].
  destruct (insert_total x acc) as [acc' ->]; cbn. apply IH.
Qed.

Lemma sorted_total (l : list A) : ∃ r, Py.sorted lt key l = Ok r.
Proof. apply sorted_from_total. Qed.

End SortedFacts.

(** Sorting on an integer key leaves the keys in ascending order. *)
Section IntKey.
Context {A : Type}.
Variable key : A → nat.

Definition ascending : list A → Prop :=
  StronglySorted (λ a b, key a ≤ key b).

Lemma insert_int_cons (x y : A) (l : list A) :
  Py.insert int_lt key x (y :: l)
  = if (key x <? key y)%nat then Ok (x :: y :: l)
    else (r ← Py.insert int_lt key x l; Ok (y :: r)).
Proof. reflexivity. Qed.

Lemma insert_ascending (x : A) (l r : list A) :
  ascending l → Py.insert int_lt key x l = Ok r → ascending r.
Proof.
  revert r; induction l as [|y l IH]; intros r Hl.
  - intros [= <-]. repeat constructor.
  - rewrite insert_int_cons. destruct (key x <? key y)%nat eqn:E.
    + intros [= <-]. apply Nat.ltb_lt in E.
      inversion Hl as [|? ? Hs Hall]; subst.
      constructor; [exact Hl|]. constructor; [lia|].
      eapply Forall_impl; [exact Hall|]. cbn; intros; lia.
    + intros H. apply bind_Ok in H as (r' & Hr' & [= <-]).
      apply Nat.ltb_ge in E.
      inversion Hl as [|? ? Hs Hall]; subst.
      constructor; [by apply IH|].
      rewrite (insert_perm _ _ _ _ _ Hr'). by constructor.
Qed.

Lemma sorted_from_ascending (acc l r : list A) :
  ascending acc → Py.sorted_from int_lt key acc l = Ok r → ascending r.
Proof.
  revert acc r; induction l as [|x l IH]; intros acc r Hacc; cbn.
  - by intros [= <-].
  - intros H. apply bind_Ok in H as (acc' & Hins & H).
    eapply IH; [|exact H]. by eapply insert_ascending.
Qed.

Lemma sorted_ascending (l r : list A) :
  Py.sorted int_lt key l = Ok r → ascending r.
Proof. apply sorted_from_ascending. constructor. Qed.

(** In an ascending list a strictly smaller key sits at a smaller index. *)
Lemma ascending_lookup_lt (l : list A) (i j : nat) (a b : A) :
  ascending l → l !! i = Some a → l !! j = Some b → key a < key b → i < j.
Proof.
  intros Hl. revert i j; induction Hl as [|y l Hs IH Hall]; intros i j Hi Hj Hlt.
  - by rewrite lookup_nil in Hi.
  - destruct i as [|i], j as [|j]; cbn in *.
    + simplify_eq. lia.
    + lia.
    + simplify_eq. apply list_elem_of_lookup_2 in Hi.
      rewrite Forall_forall in Hall. apply Hall in Hi. lia.
    + apply (proj1 (Nat.succ_lt_mono _ _)). by apply IH.
Qed.

End IntKey.

(** Sorting on [py_lt] returns only for lists of at most one element or
    whose keys all belong to one comparable type; otherwise it raises
    [TypeError]. *)
Inductive key_class : Type := CStr | CNum | CDatetime.

Definition class_of (k : sort_key) : option key_class :=
  match k with
  | KStr _ => Some CStr
  | KNone => None
  | KNum _ => Some CNum
  | KDatetime _ => Some CDatetime
  end.

Lemma py_lt_Ok (a b : sort_key) (c : bool) :
  py_lt a b = Ok c → ∃ k, class_of a = Some k ∧ class_of b = Some k.
Proof. destruct a, b; cbn; intros [=]; eauto. Qed.

Lemma py_lt_same_class (a b : sort_key) (k : key_class) :
  class_of a = Some k → class_of b = Some k → ∃ c, py_lt a b = Ok c.
Proof. destruct a, b; cbn; intros; simplify_eq; eauto. Qed.

Lemma py_lt_Raise (a b : sort_key) (e : exn) :
  py_lt a b = Raise e → e = TypeError.
Proof. destruct a, b; cbn; by intros [=]. Qed.

Section KeyClasses.
Context {A : Type}.
Variable key : A → sort_key.

Definition uniform (l : list A) : Prop :=
  length l ≤ 1 ∨ ∃ k, ∀ x, x ∈ l → class_of (key x) = Some k.

Lemma insert_uniform (x : A) (acc r : list A) :
  Py.insert py_lt key x acc = Ok r → uniform acc → uniform r.
Proof.
  destruct acc as [|y acc].
  - intros [= <-] _. left. cbn. lia.
  - intros Hins Hu. pose proof (insert_perm _ _ _ _ _ Hins) as Hperm.
    cbn in Hins. apply bind_Ok in Hins as (b & Hlt & _).
    apply py_lt_Ok in Hlt as (k & Hx & Hy).
    right. exists k. intros z Hz. rewrite Hperm in Hz.
    apply elem_of_cons in Hz as [->|Hz]; [done|].
    destruct Hu as [Hlen|(k' & Hk')].
    + destruct acc; [|cbn in Hlen; lia].
      apply list_elem_of_singleton in Hz as ->. done.
    + rewrite (Hk' z Hz). rewrite <- (Hk' y), Hy; [done|by left].
Qed.

Lemma sorted_from_uniform (acc l r : list A) :
  Py.sorted_from py_lt key acc l = Ok r → uniform acc → uniform r.
Proof.
  revert acc r; induction l as [|x l IH]; intros acc r; cbn.
  - by intros [= <-].
  - intros H Hu. apply bind_Ok in H as (acc' & Hins & H).
    eapply IH; [exact H|]. by eapply insert_uniform.
Qed.

Lemma sorted_uniform (l r : list A) :
  Py.sorted py_lt key l = Ok r → uniform l.
Proof.
  intros H. pose proof (sorted_perm _ _ _ _ H) as Hperm.
  apply sorted_from_uniform in H; [|left; cbn; lia].
  destruct H as [Hlen|(k & Hk)].
  - left. by rewrite <- Hperm.
  - right. exists k. intros x Hx. apply Hk. by rewrite Hperm.
Qed.

Lemma insert_Raise (x : A) (l : list A) (e : exn) :
  Py.insert py_lt key x l = Raise e → e = TypeError.
Proof.
  induction l as [|y l IH]; cbn; [discriminate|].
  destruct (py_lt (key x) (key y)) as [b|e'] eqn:Hlt; cbn.
  - destruct b; [discriminate|].
    destruct (Py.insert py_lt key x l) as [r|e'']; cbn; [discriminate|].
    intros [= <-]. by apply IH.
  - intros [= <-]. by eapply py_lt_Raise.
Qed.

Lemma sorted_from_Raise (acc l : list A) (e : exn) :
  Py.sorted_from py_lt key acc l = Raise e → e = TypeError.
Proof.
  revert acc; induction l as [|x l IH]; intros acc; cbn; [discriminate|].
  destruct (Py.insert py_lt key x acc) as [acc'|e'] eqn:Hins; cbn.
  - apply IH.
  - intros [= <-]. by eapply insert_Raise.
Qed.

(** The sort raises [TypeError] on every list that is not uniform. *)
Lemma sorted_not_uniform (l : list A) :
  ¬ uniform l → Py.sorted py_lt key l = Raise TypeError.
Proof.
  intros Hnu. destruct (Py.sorted py_lt key l) as [r|e] eqn:H.
  - destruct Hnu. by eapply sorted_uniform.
  - f_equal. by eapply sorted_from_Raise.
Qed.

Lemma insert_same_class (x : A) (acc : list A) (k : key_class) :
  class_of (key x) = Some k →
  (∀ y, y ∈ acc → class_of (key y) = Some k) →
  ∃ r, Py.insert py_lt key x acc = Ok r.
Proof.
  intros Hx. induction acc as [|y acc IH]; intros Hacc; cbn; [by eauto|].
  destruct (py_lt_same_class (key x) (key y) k) as [c ->];
    [done|apply Hacc; by left|].
  cbn. destruct c; [by eauto|].
  destruct IH as [r ->]; [intros; apply Hacc; by right|]. cbn. by eauto.
Qed.

Lemma sorted_from_same_class (acc l : list A) (k : key_class) :
  (∀ y, y ∈ acc ++ l → class_of (key y) = Some k) →
  ∃ r, Py.sorted_from py_lt key acc l = Ok r.
Proof.
  revert acc; induction l as [|x l IH]; intros acc Hall; cbn; [by eauto|].
  destruct (insert_same_class x acc k) as [acc' Hins].
  - apply Hall, elem_of_app. right. by left.
  - intros y Hy. apply Hall, elem_of_app. by left.
  - rewrite Hins. cbn. apply IH. intros y Hy. apply Hall.
    apply elem_of_app in Hy as [Hy|Hy].
    + rewrite (insert_perm _ _ _ _ _ Hins) in Hy.
      apply elem_of_cons in Hy as [->|Hy]; apply elem_of_app;
        [right; by left|by left].
    + apply elem_of_app. right. by right.
Qed.

(** Conversely the sort returns on every uniform list. *)
Lemma sorted_uniform_returns (l : list A) :
  uniform l → ∃ r, Py.sorted py_lt key l = Ok r.
Proof.
  intros [Hlen|(k & Hk)].
  - destruct l as [|x [|y l]]; cbn in Hlen; [by eauto|by eauto|lia].
  - by apply (sorted_from_same_class [] l k).
Qed.

Lemma two_classes_not_uniform (l : list A) (a b : A) :
  a ∈ l → b ∈ l → class_of (key a) ≠ class_of (key b) → ¬ uniform l.
Proof.
  intros Ha Hb Hne [Hlen|(k & Hk)].
  - destruct l as [|x [|y l]]; [by apply elem_of_nil in Ha| |cbn in Hlen; lia].
    apply list_elem_of_singleton in Ha as ->.
    apply list_elem_of_singleton in Hb as ->. done.
  - by rewrite (Hk a Ha), (Hk b Hb) in Hne.
Qed.

End KeyClasses.

End PyFacts.

(** ** Feasibility checks *)

Module FeasibilityFacts.

Import Feasibility.





End FeasibilityFacts.

(** ** Stop-sharing bonus *)

Module CostFacts.

Import Cost.

Local Open Scope Q_scope.













End CostFacts.

(** ** Time filter of the request store *)

Module StoreFacts.

Import Store.

(** Membership of a request in a time range; an instant that is not known
    is in no range. *)
Definition within (start_time end_time : option datetime) (r : Request) : bool :=
  match instant r with
  | Some t =>
      match start_time with Some s => (s <=? t)%Z | None => true end
      && match end_time with Some e => (t <=? e)%Z | None => true end
  | None => false
  end.

Lemma filter_loop_spec (s e : option datetime) (requests filtered : list Request) :
  filter_loop s e requests filtered = filtered ++ List.filter (within s e) requests.
Proof.
  revert filtered; induction requests as [|r rest IH]; intros filtered; cbn.
  - by rewrite app_nil_r.
  - rewrite IH. cbn [List.filter]. unfold within at 2.
    destruct (instant r) as [t|]; [|done].
    destruct s as [s|], e as [e|]; cbn;
      try destruct (s <=? t)%Z; try destruct (t <=? e)%Z; cbn;
      by rewrite <- ?app_assoc.
Qed.


End StoreFacts.

(** ** Sequencing engine *)

Module SequencingFacts.

Import Sequencing PyFacts.

(** Every pickup of a request sits before every dropoff of that request. *)
Definition precedence (seq : list StopEvent) : Prop :=
  ∀ i j e1 e2,
    seq !! i = Some e1 → seq !! j = Some e2 →
    stop_kind e1 = pickup → stop_kind e2 = dropoff →
    stop_requestId e1 = stop_requestId e2 →
    i < j.

(** A dropoff of a request known to have a pickup is preceded by one. *)
Definition pickup_leads (has_pickup : option string → Prop)
    (seq : list StopEvent) : Prop :=
  ∀ j e2,
    seq !! j = Some e2 → stop_kind e2 = dropoff →
    has_pickup (stop_requestId e2) →
    ∃ i e1, i < j ∧ seq !! i = Some e1 ∧ stop_kind e1 = pickup
            ∧ stop_requestId e1 = stop_requestId e2.

Lemma precedence_take (n : nat) (seq : list StopEvent) :
  precedence seq → precedence (take n seq).
Proof.
  intros H i j e1 e2 H1 H2. apply lookup_take_Some in H1 as [H1 _].
  apply lookup_take_Some in H2 as [H2 _]. by eapply H.
Qed.

Lemma pickup_leads_take (has : option string → Prop) (n : nat)
    (seq : list StopEvent) :
  pickup_leads has seq → pickup_leads has (take n seq).
Proof.
  intros H j e2 H2 Hk Hhas. apply lookup_take_Some in H2 as [H2 Hj].
  destruct (H j e2 H2 Hk Hhas) as (i & e1 & Hij & H1 & ? & ?).
  exists i, e1. repeat split; try done.
  rewrite lookup_take_lt by lia. done.
Qed.

Section BuildFacts.
Context {R : Type}.
Variables (rid : R → option string) (origin dest : R → string).
Variable pickup_key : R → sort_key.
Variable resolve : string → option Coord.

Lemma add_pickups_spec (rs : list R) :
  ∀ i acc po acc' po',
    add_pickups rid origin resolve i rs acc po = (acc', po') →
    (∀ k j, po !! k = Some j → j < i) →
    ∃ new,
      acc' = acc ++ new
      ∧ (∀ e, e ∈ new →
           stop_kind e = pickup
           ∧ ∃ j, po' !! stop_requestId e = Some j ∧ priority e ≤ j)
      ∧ (∀ k j, po !! k = Some j → ∃ j', po' !! k = Some j' ∧ j ≤ j')
      ∧ (∀ req, req ∈ rs → is_Some (resolve (origin req)) →
           ∃ e, e ∈ new ∧ stop_kind e = pickup ∧ stop_requestId e = rid req).
Proof.
  induction rs as [|req rest IH]; intros i acc po acc' po' H Hb; cbn in H.
  - injection H as <- <-. exists []. split; [by rewrite app_nil_r|].
    split; [intros e He; by apply elem_of_nil in He|].
    split; [by eauto|]. intros req Hreq; by apply elem_of_nil in Hreq.
  - destruct (resolve (origin req)) as [o|] eqn:Ho.
    + apply IH in H as (new & -> & Hnew & Hmono & Hpres).
      2:{ intros k j Hk. destruct (decide (rid req = k)) as [<-|Hne].
          - rewrite lookup_insert_eq in Hk. injection Hk as <-. lia.
          - rewrite lookup_insert_ne in Hk by done. apply Hb in Hk. lia. }
      destruct (Hmono (rid req) i) as (ji & Hji & Hle);
        [apply lookup_insert_eq|].
      eexists (_ :: new). split; [by rewrite <- app_assoc|]. split; [|split].
      * intros e He. apply elem_of_cons in He as [->|He]; [|by apply Hnew].
        cbn. split; [done|]. eauto.
      * intros k j Hk. destruct (decide (rid req = k)) as [<-|Hne].
        -- exists ji. split; [done|]. apply Hb in Hk. lia.
        -- apply Hmono. by rewrite lookup_insert_ne.
      * intros r Hr Hres. apply elem_of_cons in Hr as [->|Hr].
        -- eexists. split; [left|done].
        -- destruct (Hpres r Hr Hres) as (e & He & ?).
           exists e. split; [by right|done].
    + apply IH in H as (new & -> & Hnew & Hmono & Hpres);
        [|intros k j Hk; apply Hb in Hk; lia].
      exists new. repeat split; try done.
      * by apply Hnew.
      * by apply Hnew.
      * intros r Hr Hres. apply elem_of_cons in Hr as [->|Hr]; [|by eauto].
        rewrite Ho in Hres. by destruct Hres.
Qed.

Lemma add_dropoffs_spec (rs : list R) (po : gmap (option string) nat) :
  ∀ acc, ∃ new,
    add_dropoffs rid dest resolve rs po acc = acc ++ new
    ∧ ∀ e, e ∈ new →
        stop_kind e = dropoff
        ∧ priority e = default 999 (po !! stop_requestId e) + 100.
Proof.
  induction rs as [|req rest IH]; intros acc; cbn.
  - exists []. split; [by rewrite app_nil_r|].
    intros e He; by apply elem_of_nil in He.
  - destruct (resolve (dest req)) as [d|]; [|apply IH].
    destruct (IH (acc ++ [{| stop_kind := dropoff; stop_requestId := rid req;
                            stopId := dest req; coords := d;
                            priority := default 999 (po !! rid req) + 100 |}]))
      as (new & -> & Hnew).
    eexists (_ :: new). split; [by rewrite <- app_assoc|].
    intros e He. apply elem_of_cons in He as [->|He]; [done|by apply Hnew].
Qed.

(** The order produced by [build_stops]. *)
Lemma build_stops_order (requests : list R) (S : list StopEvent) :
  build_stops rid origin dest pickup_key resolve requests = Ok S →
  precedence S
  ∧ pickup_leads
      (λ k, ∃ req, req ∈ requests ∧ rid req = k
                   ∧ is_Some (resolve (origin req))) S.
Proof.
  unfold build_stops. intros H.
  apply bind_Ok in H as (rs & Hrs & H).
  destruct (add_pickups rid origin resolve 0 rs [] ∅) as [P po] eqn:HP.
  apply add_pickups_spec in HP as (new & -> & Hnew & _ & Hpres);
    [|intros k j; by rewrite lookup_empty].
  destruct (add_dropoffs_spec rs po ([] ++ new)) as (D & HD & Hdrop).
  rewrite HD in H. cbn [app] in H.
  pose proof (sorted_perm _ _ _ _ H) as Hperm.
  pose proof (sorted_ascending _ _ _ H) as Hasc.
  assert (Hkey : ∀ e1 e2, e1 ∈ S → e2 ∈ S →
            stop_kind e1 = pickup → stop_kind e2 = dropoff →
            stop_requestId e1 = stop_requestId e2 →
            priority e1 < priority e2).
  { intros e1 e2 H1 H2 K1 K2 Hid.
    rewrite Hperm in H1, H2.
    apply elem_of_app in H1 as [H1|H1];
      [|apply Hdrop in H1 as [? _]; congruence].
    apply elem_of_app in H2 as [H2|H2];
      [apply Hnew in H2 as [? _]; congruence|].
    apply Hnew in H1 as (_ & j & Hj & Hle).
    apply Hdrop in H2 as (_ & ->).
    rewrite <- Hid, Hj. cbn. lia. }
  split.
  - intros i j e1 e2 H1 H2 K1 K2 Hid.
    eapply (ascending_lookup_lt priority); [exact Hasc|exact H1|exact H2|].
    apply Hkey; try done; by eapply list_elem_of_lookup_2.
  - intros j e2 H2 K2 (req & Hreq & Hid & Hres).
    rewrite <- (sorted_perm _ _ _ _ Hrs) in Hreq.
    destruct (Hpres req Hreq Hres) as (e1 & He1 & K1 & Hid1).
    assert (He1S : e1 ∈ S) by (rewrite Hperm; apply elem_of_app; by left).
    destruct (list_elem_of_lookup_1 _ _ He1S) as [i Hi].
    exists i, e1. repeat split; try done; [|congruence].
    eapply (ascending_lookup_lt priority); [exact Hasc|exact Hi|exact H2|].
    apply Hkey; try done; [by eapply list_elem_of_lookup_2|congruence].
Qed.

(** The stop sort itself never raises. *)
Lemma build_stops_returns (requests rs : list R) :
  Py.sorted py_lt pickup_key requests = Ok rs →
  ∃ S, build_stops rid origin dest pickup_key resolve requests = Ok S.
Proof.
  intros Hrs. unfold build_stops. rewrite Hrs; cbn.
  destruct (add_pickups rid origin resolve 0 rs [] ∅) as [P po].
  apply sorted_total. intros x y. unfold int_lt. eauto.
Qed.

End BuildFacts.

(** What the two functions return, in terms of the sorted stops. *)
Lemma local_shape (stops : gmap string StopItem)
    (provider : Coord → Coord → list Coord → option ProviderResponse)
    (vehicle_id : string) (requests : list Request) (result : RouteResult) :
  Local._calculate_route_locally stops provider vehicle_id requests = Ok result →
  ∃ S, Local.all_stops_of stops requests = Ok S
       ∧ waypoints result = Some (take 23 (coords <$> S))
       ∧ sequence result = Some (take 23 S).
Proof.
  unfold Local._calculate_route_locally. destruct requests as [|r rest].
  - intros [= <-]. exists []. repeat split.
  - intros H. apply bind_Ok in H as (S & HS & H). exists S. split; [done|].
    destruct (length (coords <$> S) <? 2)%nat eqn:E.
    + injection H as <-. cbn. apply Nat.ltb_lt in E.
      rewrite !take_ge; [done| |]; rewrite ?length_fmap in *; lia.
    + unfold limit_waypoints in H.
      destruct (23 <? length (coords <$> S))%nat eqn:E23.
      * injection H as <-. unfold route_or_degrade.
        destruct (call_provider _ _); done.
      * injection H as <-. apply Nat.ltb_ge in E23.
        unfold route_or_degrade. destruct (call_provider _ _); cbn;
          (rewrite !take_ge; [done| |]; rewrite ?length_fmap in *; lia).
Qed.

Lemma remote_shape (stops : gmap string StopItem)
    (provider : Coord → Coord → list Coord → option ProviderResponse)
    (vehicle_id : string) (requests : list Remote.JsonRequest)
    (result : RouteResult) :
  Remote.optimize_route stops provider vehicle_id requests = Ok result →
  (waypoints result = None ∧ sequence result = None)
  ∨ ∃ S, Remote.all_stops_of stops requests = Ok S
         ∧ waypoints result = Some (take 23 (coords <$> S))
         ∧ sequence result = Some (take 23 S).
Proof.
  unfold Remote.optimize_route. destruct requests as [|r rest].
  - intros [= <-]. by left.
  - intros H. apply bind_Ok in H as (S & HS & H).
    destruct (length (coords <$> S) <? 2)%nat eqn:E.
    + injection H as <-. by left.
    + right. exists S. split; [done|]. unfold limit_waypoints in H.
      destruct (23 <? length (coords <$> S))%nat eqn:E23.
      * injection H as <-. unfold route_or_degrade.
        destruct (call_provider _ _); done.
      * injection H as <-. apply Nat.ltb_ge in E23.
        unfold route_or_degrade. destruct (call_provider _ _); cbn;
          (rewrite !take_ge; [done| |]; rewrite ?length_fmap in *; lia).
Qed.

(** C2. In every sequence returned by either sequencing function, a
    pickup event of a request stands strictly before a dropoff event of
    the same request; and a dropoff of a request whose origin resolves is
    preceded by a pickup of that request.  Nothing is said about pickups
    and dropoffs of different requests. *)
Theorem pickup_precedes_dropoff :
  (∀ stops provider vehicle_id requests result seq,
     Local._calculate_route_locally stops provider vehicle_id requests
       = Ok result →
     sequence result = Some seq →
     precedence seq
     ∧ pickup_leads
         (λ k, ∃ req, req ∈ requests ∧ requestId req = k
                      ∧ is_Some (Cost.get_stop_coords stops (originStopId req)))
         seq)
  ∧ (∀ stops provider vehicle_id requests result seq,
       Remote.optimize_route stops provider vehicle_id requests = Ok result →
       sequence result = Some seq →
       precedence seq
       ∧ pickup_leads
           (λ k, ∃ req, req ∈ requests ∧ Remote.j_requestId req = k
                        ∧ is_Some (Remote.get_stop_coords stops
                                     (Remote.j_originStopId req)))
           seq).
Proof.
  split; intros stops provider vid requests result seq Hrun Hseq.
  - apply local_shape in Hrun as (S & HS & _ & Hq).
    rewrite Hq in Hseq. injection Hseq as <-.
    apply build_stops_order in HS as [Hp Hl].
    split; [by apply precedence_take | by apply pickup_leads_take].
  - apply remote_shape in Hrun as [[_ Hq]|(S & HS & _ & Hq)]; [congruence|].
    rewrite Hq in Hseq. injection Hseq as <-.
    apply build_stops_order in HS as [Hp Hl].
    split; [by apply precedence_take | by apply pickup_leads_take].
Qed.


(** C10. In every result the waypoint list and the stop sequence have the
    same length and the k-th waypoint is the coordinate of the k-th stop
    event; both are the same prefix of the lists built before the cap is
    applied, which are aligned in the same way. *)
Theorem waypoints_aligned_with_sequence :
  (∀ stops provider vehicle_id requests result,
     Local._calculate_route_locally stops provider vehicle_id requests
       = Ok result →
     ∃ S w q,
       Local.all_stops_of stops requests = Ok S
       ∧ waypoints result = Some w ∧ sequence result = Some q
       ∧ w = take 23 (coords <$> S) ∧ q = take 23 S
       ∧ length w = length q
       ∧ ∀ i, w !! i = coords <$> q !! i)
  ∧ (∀ stops provider vehicle_id requests result,
       Remote.optimize_route stops provider vehicle_id requests = Ok result →
       (waypoints result = None ∧ sequence result = None)
       ∨ ∃ S w q,
           Remote.all_stops_of stops requests = Ok S
           ∧ waypoints result = Some w ∧ sequence result = Some q
           ∧ w = take 23 (coords <$> S) ∧ q = take 23 S
           ∧ length w = length q
           ∧ ∀ i, w !! i = coords <$> q !! i).
Proof.
  split.
  - intros stops provider vid requests result Hrun.
    apply local_shape in Hrun as (S & HS & Hw & Hq).
    exists S, (take 23 (coords <$> S)), (take 23 S).
    repeat split; try done.
    + by rewrite <- fmap_take, length_fmap.
    + intros i. by rewrite <- fmap_take, list_lookup_fmap.
  - intros stops provider vid requests result Hrun.
    apply remote_shape in Hrun as [?|(S & HS & Hw & Hq)]; [by left|right].
    exists S, (take 23 (coords <$> S)), (take 23 S).
    repeat split; try done.
    + by rewrite <- fmap_take, length_fmap.
    + intros i. by rewrite <- fmap_take, list_lookup_fmap.
Qed.

(** C7. When the stops are built, there are at least two of them and the
    provider call on the capped waypoints fails, the local sequencing
    function returns a result with empty route, distance 0 and duration 0
    whose waypoints and sequence are the capped lists handed to the
    provider. *)
Theorem provider_failure_degrades (stops : gmap string StopItem)
    (provider : Coord → Coord → list Coord → option ProviderResponse)
    (vehicle_id : string) (requests : list Request) (S : list StopEvent) :
  Local.all_stops_of stops requests = Ok S →
  2 ≤ length S →
  call_provider provider (limit_waypoints (coords <$> S) S).1 = None →
  Local._calculate_route_locally stops provider vehicle_id requests
  = Ok {| route := []; distance := 0; duration := 0;
          waypoints := Some (limit_waypoints (coords <$> S) S).1;
          sequence := Some (limit_waypoints (coords <$> S) S).2 |}.
Proof.
  intros HS Hlen Hfail. unfold Local._calculate_route_locally.
  destruct requests as [|r rest].
  - vm_compute in HS. injection HS as <-. cbn in Hlen. lia.
  - rewrite HS. cbn [mbind Exc_bind].
    destruct (length (coords <$> S) <? 2)%nat eqn:E.
    + apply Nat.ltb_lt in E. rewrite length_fmap in E. lia.
    + destruct (limit_waypoints (coords <$> S) S) as [w q]. cbn in Hfail.
      unfold route_or_degrade. by rewrite Hfail.
Qed.

(** A request list whose sort keys are not of one comparable type makes
    both functions raise at their first statement. *)
Lemma local_not_uniform_raises (stops : gmap string StopItem)
    (provider : Coord → Coord → list Coord → option ProviderResponse)
    (vehicle_id : string) (requests : list Request) :
  ¬ uniform Local.pickup_key requests →
  Local._calculate_route_locally stops provider vehicle_id requests
  = Raise TypeError.
Proof.
  intros Hnu. unfold Local._calculate_route_locally.
  destruct requests as [|r rest]; [destruct Hnu; left; cbn; lia|].
  unfold Local.all_stops_of, build_stops.
  by rewrite (sorted_not_uniform _ _ Hnu).
Qed.

Lemma remote_not_uniform_raises (stops : gmap string StopItem)
    (provider : Coord → Coord → list Coord → option ProviderResponse)
    (vehicle_id : string) (requests : list Remote.JsonRequest) :
  ¬ uniform Remote.pickup_key requests →
  Remote.optimize_route stops provider vehicle_id requests = Raise TypeError.
Proof.
  intros Hnu. unfold Remote.optimize_route.
  destruct requests as [|r rest]; [destruct Hnu; left; cbn; lia|].
  unfold Remote.all_stops_of, build_stops.
  by rewrite (sorted_not_uniform _ _ Hnu).
Qed.

(** C6, where the code departs from it.  Whenever the list holds a request
    with a known pickup instant and a request whose instant is [None] or
    absent, the sort on [r.get('requestedPickupAt', '')] compares a
    [datetime] with [None] or with [''] and the local function raises
    [TypeError] instead of ordering the request without instant first.
    The remote calculator raises in the same way when a dated request
    meets one whose instant is [null]. *)
Theorem mixed_pickup_instants_raise :
  (∀ stops provider vehicle_id requests known unknown t,
     known ∈ requests → unknown ∈ requests →
     requestedPickupAt known = At t →
     requestedPickupAt unknown = Null ∨ requestedPickupAt unknown = Missing →
     Local._calculate_route_locally stops provider vehicle_id requests
     = Raise TypeError)
  ∧ (∀ stops provider vehicle_id requests known unknown s,
       known ∈ requests → unknown ∈ requests →
       Remote.j_requestedPickupAt known = Remote.JText s →
       Remote.j_requestedPickupAt unknown = Remote.JNull →
       Remote.optimize_route stops provider vehicle_id requests
       = Raise TypeError).
Proof.
  split.
  - intros stops provider vid requests known unknown t Hk Hu Hat Hmiss.
    apply local_not_uniform_raises.
    apply (two_classes_not_uniform _ _ known unknown); try done.
    unfold Local.pickup_key. rewrite Hat.
    destruct Hmiss as [-> | ->]; discriminate.
  - intros stops provider vid requests known unknown s Hk Hu Htext Hnull.
    apply remote_not_uniform_raises.
    apply (two_classes_not_uniform _ _ known unknown); try done.
    unfold Remote.pickup_key. rewrite Htext, Hnull. discriminate.
Qed.

End SequencingFacts.

(** ** Assignment engine *)

Module AssignmentFacts.

Import Assignment Feasibility Cost PyFacts.

(** Every request of every vehicle list of an assignment. *)
Definition all_assigned (a : gmap string (list Request)) : list Request :=
  flat_map snd (map_to_list a).





Section WithStops.
Variable stops_table : gmap string StopItem.
Variables max_wait_minutes max_travel_minutes : Z.

(** The request's origin stop resolves to coordinates. *)
Definition origin_resolves (r : Request) : Prop :=
  is_Some (get_stop_coords stops_table (originStopId r)).

#[local] Instance origin_resolves_dec (r : Request) :
  Decision (origin_resolves r).
Proof. unfold origin_resolves. apply _. Defined.

(** The guard of the cost function keeps the penalty from raising. *)
Lemma cost_returns (request : Request) (vehicle : Vehicle)
    (current : list Request) :
  ∃ c, _calculate_assignment_cost stops_table request vehicle current = Ok c.
Proof.
  unfold _calculate_assignment_cost.
  destruct (get_stop_coords stops_table (originStopId request)) as [o|] eqn:Ho;
    [|by eauto].
  destruct (get_stop_coords stops_table (destStopId request)) as [d|] eqn:Hd;
    [|by eauto].
  assert (∃ p, _calculate_route_efficiency_penalty stops_table request current
               = Ok p) as [p ->].
  { unfold _calculate_route_efficiency_penalty.
    destruct current as [|e rest]; [by eauto|].
    destruct (flat_map _ (e :: rest)) as [|c cs]; [by eauto|].
    rewrite Ho, Hd. by eauto. }
  cbn [mbind Exc_bind]. by eauto.
Qed.

Lemma getitem_Some (a : gmap string (list Request)) (vid : string)
    (l : list Request) :
  a !! vid = Some l → getitem a vid = Ok l.
Proof. unfold getitem. by intros ->. Qed.

Lemma append_to_Some (a : gmap string (list Request)) (vid : string)
    (l : list Request) (r : Request) :
  a !! vid = Some l → append_to a vid r = Ok (<[vid := l ++ [r]]> a).
Proof. intros Hl. unfold append_to. by rewrite (getitem_Some _ _ _ Hl). Qed.

(** The inner loop returns, and a vehicle it newly selects is one of the
    fleet with room left. *)
Lemma best_vehicle_loop_spec (vehicles : list Vehicle)
    (a : gmap string (list Request)) (request : Request) :
  (∀ v, v ∈ vehicles → is_Some (a !! vehicleId v)) →
  ∀ best c seen, ∃ best' c' seen',
    best_vehicle_loop stops_table max_wait_minutes max_travel_minutes
      vehicles a request best c seen = Ok (best', c', seen')
    ∧ (best' = best
       ∨ ∃ v l, best' = Some v ∧ v ∈ vehicles ∧ a !! vehicleId v = Some l
                ∧ length l < capacity_of v).
Proof.
  induction vehicles as [|v rest IH]; intros Hdom best c seen;
    cbn [best_vehicle_loop]; [by eauto 6|].
  destruct (Hdom v) as [l Hl]; [by left|].
  rewrite (getitem_Some _ _ _ Hl). cbn [mbind Exc_bind].
  assert (Hrest : ∀ v', v' ∈ rest → is_Some (a !! vehicleId v'))
    by (intros; apply Hdom; by right).
  assert (Hskip : ∃ best' c' seen',
    best_vehicle_loop stops_table max_wait_minutes max_travel_minutes
      rest a request best c seen = Ok (best', c', seen')
    ∧ (best' = best
       ∨ ∃ v0 l0, best' = Some v0 ∧ v0 ∈ v :: rest ∧ a !! vehicleId v0 = Some l0
                  ∧ length l0 < capacity_of v0)).
  { destruct (IH Hrest best c seen) as (b' & c' & s' & Hrun & Hb').
    exists b', c', s'. split; [done|].
    destruct Hb' as [->|(v0 & l0 & -> & Hin & Hl0 & Hlt)]; [by left|].
    right. exists v0, l0. repeat split; try done. by right. }
  destruct (capacity_of v <=? length l)%nat eqn:Ecap; [exact Hskip|].
  destruct (_violates_waiting_time _ _ _); [exact Hskip|].
  destruct (_violates_travel_duration _ _ _); [exact Hskip|].
  destruct (cost_returns request v l) as [cost ->]. cbn [mbind Exc_bind].
  apply Nat.leb_gt in Ecap.
  destruct (cost <? c)%float.
  - destruct (IH Hrest (Some v) cost true) as (b' & c' & s' & Hrun & Hb').
    exists b', c', s'. split; [done|]. right.
    destruct Hb' as [->|(v0 & l0 & -> & Hin & Hl0 & Hlt)].
    + exists v, l. repeat split; try done. by left.
    + exists v0, l0. repeat split; try done. by right.
  - destruct (IH Hrest best c true) as (b' & c' & s' & Hrun & Hb').
    exists b', c', s'. split; [done|].
    destruct Hb' as [->|(v0 & l0 & -> & Hin & Hl0 & Hlt)]; [by left|].
    right. exists v0, l0. repeat split; try done. by right.
Qed.

(** A vehicle is feasible for a request when it passes the three checks
    of the inner loop. *)
Definition feasible (a : gmap string (list Request)) (request : Request)
    (v : Vehicle) : Prop :=
  ∃ l, a !! vehicleId v = Some l
       ∧ length l < capacity_of v
       ∧ _violates_waiting_time request l max_wait_minutes = false
       ∧ _violates_travel_duration request l max_travel_minutes = false.

(** The ghost flag of the inner loop is raised exactly when some vehicle
    of the fleet is feasible. *)
Lemma best_vehicle_loop_seen (vehicles : list Vehicle)
    (a : gmap string (list Request)) (request : Request) :
  ∀ best c seen best' c' seen',
    best_vehicle_loop stops_table max_wait_minutes max_travel_minutes
      vehicles a request best c seen = Ok (best', c', seen') →
    (seen' = true
     ↔ seen = true ∨ ∃ v, v ∈ vehicles ∧ feasible a request v).
Proof.
  induction vehicles as [|v rest IH]; intros best c seen best' c' seen';
    cbn [best_vehicle_loop].
  - intros [= _ _ <-]. split; [by left|].
    intros [?|(v & Hv & _)]; [done|by apply elem_of_nil in Hv].
  - intros H. apply bind_Ok in H as (l & Hget & H).
    assert (Hl : a !! vehicleId v = Some l).
    { unfold getitem in Hget. destruct (a !! vehicleId v); by simplify_eq. }
    assert (Hskip : ¬ feasible a request v →
              best_vehicle_loop stops_table max_wait_minutes
                max_travel_minutes rest a request best c seen
              = Ok (best', c', seen') →
              seen' = true
              ↔ seen = true ∨ ∃ v0, v0 ∈ v :: rest ∧ feasible a request v0).
    { intros Hnf Hrun. rewrite (IH _ _ _ _ _ _ Hrun). split.
      - intros [?|(v0 & Hin & Hf)]; [by left|].
        right. exists v0. split; [by right|done].
      - intros [?|(v0 & Hin & Hf)]; [by left|].
        apply elem_of_cons in Hin as [->|Hin]; [done|by eauto]. }
    destruct (capacity_of v <=? length l)%nat eqn:Ecap.
    { apply Hskip; [|done]. intros (l' & Hl' & Hlt & _).
      apply Nat.leb_le in Ecap. simplify_eq. lia. }
    destruct (_violates_waiting_time request l max_wait_minutes) eqn:Ew.
    { apply Hskip; [|done]. intros (l' & Hl' & _ & Hw & _).
      simplify_eq. congruence. }
    destruct (_violates_travel_duration request l max_travel_minutes) eqn:Et.
    { apply Hskip; [|done]. intros (l' & Hl' & _ & _ & Ht).
      simplify_eq. congruence. }
    apply Nat.leb_gt in Ecap.
    assert (Hf : feasible a request v) by (exists l; done).
    apply bind_Ok in H as (cost & _ & H).
    assert (seen' = true) as ->.
    { destruct (cost <? c)%float;
        apply IH in H; apply H; by left. }
    split; [|done]. intros _. right. exists v. split; [by left|done].
Qed.

Definition load_of (a : gmap string (list Request)) (v : Vehicle) : Exc nat :=
  l ← getitem a (vehicleId v); Ok (length l).

Lemma min_from_spec (a : gmap string (list Request)) (l : list Vehicle) :
  (∀ v, v ∈ l → is_Some (a !! vehicleId v)) →
  ∀ best k, ∃ v, Py.min_from (load_of a) best k l = Ok v ∧ (v = best ∨ v ∈ l).
Proof.
  induction l as [|x l IH]; intros Hdom best k; cbn [Py.min_from]; [by eauto|].
  destruct (Hdom x) as [lx Hlx]; [by left|].
  assert (Hload : load_of a x = Ok (length lx))
    by (unfold load_of; by rewrite (getitem_Some _ _ _ Hlx)).
  rewrite Hload. cbn [mbind Exc_bind].
  assert (Hrest : ∀ v, v ∈ l → is_Some (a !! vehicleId v))
    by (intros; apply Hdom; by right).
  destruct (length lx <? k)%nat.
  - destruct (IH Hrest x (length lx)) as (v & Hv & Hin). exists v.
    split; [done|]. right. destruct Hin as [->|Hin]; [by left|by right].
  - destruct (IH Hrest best k) as (v & Hv & Hin). exists v.
    split; [done|]. destruct Hin as [->|Hin]; [by left|right; by right].
Qed.

Lemma min_spec (a : gmap string (list Request)) (vehicles : list Vehicle) :
  vehicles ≠ [] →
  (∀ v, v ∈ vehicles → is_Some (a !! vehicleId v)) →
  ∃ v, Py.min (load_of a) vehicles = Ok v ∧ v ∈ vehicles.
Proof.
  intros Hne Hdom. destruct vehicles as [|x l]; [done|]. cbn [Py.min].
  destruct (Hdom x) as [lx Hlx]; [by left|].
  assert (Hload : load_of a x = Ok (length lx))
    by (unfold load_of; by rewrite (getitem_Some _ _ _ Hlx)).
  rewrite Hload. cbn [mbind Exc_bind].
  destruct (min_from_spec a l) with (best := x) (k := length lx)
    as (v & Hv & Hin); [intros; apply Hdom; by right|].
  exists v. split; [done|]. destruct Hin as [->|Hin]; [by left|by right].
Qed.

(** One turn of the main loop: an unresolvable request changes nothing, a
    resolvable one is appended to the list of one vehicle of the fleet,
    and a placement outside the fallback branch finds room there. *)
Lemma assign_step_cases (vehicles : list Vehicle)
    (a : gmap string (list Request)) (log : list Placement) (r : Request) :
  vehicles ≠ [] →
  (∀ v, v ∈ vehicles → is_Some (a !! vehicleId v)) →
  ∃ st',
    assign_step stops_table max_wait_minutes max_travel_minutes vehicles
      (a, log) r = Ok st'
    ∧ ((¬ origin_resolves r ∧ st' = (a, log))
       ∨ (origin_resolves r
          ∧ ∃ v l d,
              v ∈ vehicles ∧ a !! vehicleId v = Some l
              ∧ st' = (<[vehicleId v := l ++ [r]]> a, log ++ [d])
              ∧ placed d = r ∧ placed_on d = vehicleId v
              ∧ (forced d = false → length l < capacity_of v))).
Proof.
  intros Hne Hdom. unfold assign_step, origin_resolves.
  destruct (get_stop_coords stops_table (originStopId r)) as [o|] eqn:Ho.
  - destruct (best_vehicle_loop_spec vehicles a r Hdom None infinity false)
      as (b & c & s & -> & Hb).
    cbn [mbind Exc_bind].
    destruct Hb as [->|(v & l & -> & Hin & Hl & Hlt)].
    + destruct (min_spec a vehicles Hne Hdom) as (v & Hv & Hin).
      fold (load_of a). rewrite Hv. cbn [mbind Exc_bind].
      destruct (Hdom v Hin) as [l Hl].
      rewrite (append_to_Some _ _ _ _ Hl). cbn [mbind Exc_bind].
      eexists. split; [done|]. right. split; [by eauto|].
      exists v, l. eexists. repeat split; try done.
    + rewrite (append_to_Some _ _ _ _ Hl). cbn [mbind Exc_bind].
      eexists. split; [done|]. right. split; [by eauto|].
      exists v, l. eexists. repeat split; try done.
  - eexists. split; [done|]. left. split; [|done]. by intros [? [=]].
Qed.

Section Fleet.
Variable vehicles : list Vehicle.
Hypothesis fleet_not_empty : vehicles ≠ [].

Definition fleet_ids : gset string := list_to_set (vehicleId <$> vehicles).

Lemma fleet_in_dom (a : gmap string (list Request)) :
  dom a = fleet_ids → ∀ v, v ∈ vehicles → is_Some (a !! vehicleId v).
Proof.
  intros Hd v Hv. apply elem_of_dom. rewrite Hd. unfold fleet_ids.
  apply elem_of_list_to_set, list_elem_of_fmap. by exists v.
Qed.


(** What the ghost log says of an assignment: each list is made of the
    requests logged for that vehicle, in order, and a vehicle without a
    fallback placement is within its capacity. *)
Definition log_agrees (a : gmap string (list Request)) (log : list Placement)
    : Prop :=
  ∀ v l, v ∈ vehicles → a !! vehicleId v = Some l →
    l = placed <$> filter (λ d, placed_on d = vehicleId v) log
    ∧ ((∀ d, d ∈ log → placed_on d = vehicleId v → forced d = false) →
       length l ≤ capacity_of v).

Hypothesis distinct_ids : NoDup (vehicleId <$> vehicles).

Lemma same_id_same_vehicle (v v' : Vehicle) :
  v ∈ vehicles → v' ∈ vehicles → vehicleId v = vehicleId v' → v = v'.
Proof.
  clear fleet_not_empty. revert distinct_ids.
  induction vehicles as [|x l IH]; intros Hnd Hv Hv' Hid.
  - by apply elem_of_nil in Hv.
  - rewrite fmap_cons in Hnd. apply NoDup_cons in Hnd as [Hx Hnd].
    apply elem_of_cons in Hv as [->|Hv], Hv' as [->|Hv']; try done.
    + exfalso. apply Hx. rewrite Hid. apply list_elem_of_fmap. by exists v'.
    + exfalso. apply Hx. rewrite <- Hid. apply list_elem_of_fmap. by exists v.
    + by apply IH.
Qed.

Lemma assign_loop_capacity (rs : list Request) :
  ∀ a log a' log', dom a = fleet_ids →
    assign_loop stops_table max_wait_minutes max_travel_minutes vehicles
      (a, log) rs = Ok (a', log') →
    log_agrees a log → log_agrees a' log'.
Proof.
  induction rs as [|r rest IH]; intros a log a' log' Hd; cbn [assign_loop].
  - by intros [= <- <-].
  - destruct (assign_step_cases vehicles a log r fleet_not_empty
                (fleet_in_dom a Hd))
      as (st' & -> & [[Hno ->]|(Hyes & v & l & d & Hin & Hl & -> & Hp & Hon & Hroom)]);
      cbn [mbind Exc_bind]; [by apply IH|].
    intros Hrun Hagree. eapply IH; [|exact Hrun|].
    { rewrite dom_insert_lookup_L; [done|by eauto]. }
    intros v' l' Hin' Hl'.
    destruct (decide (vehicleId v = vehicleId v')) as [Heq|Hneq].
    + assert (v = v') as <- by by apply same_id_same_vehicle.
      rewrite lookup_insert_eq in Hl'. injection Hl' as <-.
      destruct (Hagree v l Hin Hl) as [Hlist Hcap]. split.
      * rewrite filter_app, fmap_app, <- Hlist.
        rewrite filter_cons_True, filter_nil by done.
        rewrite fmap_cons, fmap_nil. by rewrite Hp.
      * intros Hnf. rewrite length_app. cbn.
        assert (forced d = false) as Hd0.
        { apply Hnf; [|done]. apply elem_of_app. right. by left. }
        specialize (Hroom Hd0). lia.
    + rewrite lookup_insert_ne in Hl' by done.
      destruct (Hagree v' l' Hin' Hl') as [Hlist Hcap]. split.
      * rewrite filter_app, filter_cons_False by congruence.
        by rewrite filter_nil, app_nil_r.
      * intros Hnf. apply Hcap. intros d' Hd' Hon'.
        apply Hnf; [|done]. apply elem_of_app. by left.
Qed.

End Fleet.

End WithStops.

#[global] Existing Instance origin_resolves_dec.

(** The dictionary built before the loop: one empty list per vehicle id. *)
Lemma initial_assignments (vehicles : list Vehicle) :
  let a0 : gmap string (list Request) :=
    list_to_map ((λ vehicle, (vehicleId vehicle, [])) <$> vehicles) in
  dom a0 = fleet_ids vehicles ∧ all_assigned a0 = []
  ∧ ∀ k l, a0 !! k = Some l → l = [].
Proof.
  intros a0.
  assert (Hnil : ∀ k l, a0 !! k = Some l → l = []).
  { intros k l Hl. apply elem_of_list_to_map_2 in Hl.
    apply list_elem_of_fmap in Hl as (v & [= _ ->] & _). done. }
  split; [|split; [|exact Hnil]].
  - unfold a0, fleet_ids. rewrite dom_list_to_map_L, <- list_fmap_compose.
    done.
  - unfold all_assigned.
    assert (Hall : ∀ p, p ∈ map_to_list a0 → p.2 = []).
    { intros [k l] Hp. apply elem_of_map_to_list in Hp. by eapply Hnil. }
    induction (map_to_list a0) as [|p ps IH]; [done|]. cbn.
    rewrite (Hall p), IH; [done| |by left]. intros q Hq. apply Hall. by right.
Qed.


(** C3, as the code has it.  In a fleet with distinct identifiers, each
    vehicle list is made of the requests the log records for that vehicle,
    and a vehicle that received no request through the fallback branch of
    the loop holds at most [capacity] requests (20 when unspecified).  The
    fallback branch is the one taken when no vehicle passed the three
    feasibility checks with a cost below infinity. *)
Theorem capacity_unless_fallback (stops : gmap string StopItem)
    (max_wait_minutes max_travel_minutes : Z)
    (requests : list Request) (vehicles : list Vehicle)
    (a : gmap string (list Request)) (log : list Placement) :
  NoDup (vehicleId <$> vehicles) →
  assign_with_log stops max_wait_minutes max_travel_minutes requests vehicles
    = Ok (a, log) →
  ∀ v l, v ∈ vehicles → a !! vehicleId v = Some l →
    l = placed <$> filter (λ d, placed_on d = vehicleId v) log
    ∧ ((∀ d, d ∈ log → placed_on d = vehicleId v → forced d = false) →
       length l ≤ capacity_of v).
Proof.
  intros Hnd Hrun v l Hv.
  assert (Hne : vehicles ≠ []) by (intros ->; by apply elem_of_nil in Hv).
  revert v l Hv. fold (log_agrees vehicles a log).
  unfold assign_with_log in Hrun.
  apply bind_Ok in Hrun as (rs & _ & Hrun).
  destruct (initial_assignments vehicles) as (Hd0 & _ & Hnil).
  eapply (assign_loop_capacity stops max_wait_minutes max_travel_minutes
            vehicles Hne Hnd rs); [exact Hd0|exact Hrun|].
  intros v l _ Hl. apply Hnil in Hl as ->. split; [done|]. cbn. lia.
Qed.

(** C3 as it is worded: a vehicle is within capacity as soon as every
    request it received had some vehicle passing the feasibility checks
    when it was placed. *)
Definition capacity_unless_infeasible (stops : gmap string StopItem)
    (max_wait_minutes max_travel_minutes : Z)
    (requests : list Request) (vehicles : list Vehicle) : Prop :=
  ∀ a log,
    assign_with_log stops max_wait_minutes max_travel_minutes requests vehicles
      = Ok (a, log) →
    ∀ v l, v ∈ vehicles → a !! vehicleId v = Some l →
      (∀ d, d ∈ log → placed_on d = vehicleId v → feasible_seen d = true) →
      length l ≤ capacity_of v.

End AssignmentFacts.

(** * A worked scenario

    Three stops, two vehicles and three requests, on which the engines are
    run and the statements above are instantiated. *)

Module Scenario.

Import Assignment AssignmentFacts Sequencing SequencingFacts Store StoreFacts.

Definition stops : gmap string StopItem :=
  list_to_map
    [ ("S1", {| stop_lat := Some 1%float; stop_lon := Some 1%float |});
      ("S2", {| stop_lat := Some 2%float; stop_lon := Some 2%float |});
      ("S3", {| stop_lat := Some 3%float; stop_lon := Some 3%float |}) ].

(** A one-seat vehicle parked at S1 and a vehicle of default capacity
    parked at S3. *)
Definition bus_A : Vehicle :=
  {| vehicleId := "A"; capacity := Some 1;
     longitude := Some 1%float; latitude := Some 1%float |}.

Definition bus_B : Vehicle :=
  {| vehicleId := "B"; capacity := None;
     longitude := Some 3%float; latitude := Some 3%float |}.

Definition fleet : list Vehicle := [bus_A; bus_B].

(** Pickups one minute apart; the destination of the third request is not
    in the stop store. *)
Definition r1 : Request :=
  {| requestId := Some "r1"; originStopId := "S1"; destStopId := "S2";
     requestedPickupAt := At 0%Z |}.

Definition r2 : Request :=
  {| requestId := Some "r2"; originStopId := "S3"; destStopId := "S2";
     requestedPickupAt := At 60000000%Z |}.

Definition r3 : Request :=
  {| requestId := Some "r3"; originStopId := "S1"; destStopId := "S4";
     requestedPickupAt := At 120000000%Z |}.

Definition requests : list Request := [r1; r2; r3].

(** The run: [r1] goes to A, [r2] to B; for [r3] vehicle B passes the
    three checks but its cost is infinite, so the fallback branch places
    [r3] on the least loaded vehicle, A, which is already full. *)
Lemma outcome :
  assign_with_log stops 15%Z 20%Z requests fleet
  = Ok (<["A" := [r1; r3]]> (<["B" := [r2]]> ∅),
        [ {| placed := r1; placed_on := "A"; forced := false;
             feasible_seen := true |};
          {| placed := r2; placed_on := "B"; forced := false;
             feasible_seen := true |};
          {| placed := r3; placed_on := "A"; forced := true;
             feasible_seen := true |} ]).
Proof. vm_compute. reflexivity. Qed.

(** When [r3] is placed, vehicle B is feasible for it. *)
Lemma bus_B_feasible_for_r3 :
  feasible 15%Z 20%Z (<["A" := [r1]]> (<["B" := [r2]]> ∅)) r3 bus_B.
Proof. exists [r2]. repeat split. cbn. lia. Qed.

(** C3 fails as worded: every request vehicle A received had a feasible
    vehicle when it was placed, and A ends with two requests for one
    seat. *)
Lemma unresolvable_destination_overfills :
  ¬ capacity_unless_infeasible stops 15%Z 20%Z requests fleet.
Proof.
  intros H.
  specialize (H _ _ outcome bus_A [r1; r3]).
  assert (length [r1; r3] ≤ capacity_of bus_A) as Hle; [|cbn in Hle; lia].
  apply H.
  - by left.
  - reflexivity.
  - intros d Hd _.
    repeat (apply elem_of_cons in Hd as [->|Hd]; [reflexivity|]).
    by apply elem_of_nil in Hd.
Qed.


Lemma capacity_unless_fallback_witness :
  [r2] = placed <$> filter (λ d, placed_on d = vehicleId bus_B)
           [ {| placed := r1; placed_on := "A"; forced := false;
                feasible_seen := true |};
             {| placed := r2; placed_on := "B"; forced := false;
                feasible_seen := true |};
             {| placed := r3; placed_on := "A"; forced := true;
                feasible_seen := true |} ]
  ∧ length [r2] ≤ capacity_of bus_B.
Proof.
  assert (Hids : NoDup (vehicleId <$> fleet)) by compute_done.
  assert (Hin : bus_B ∈ fleet) by (right; left).
  assert (Hget : (<["A" := [r1; r3]]> (<["B" := [r2]]> ∅)
                    : gmap string (list Request)) !! vehicleId bus_B
                 = Some [r2]) by reflexivity.
  destruct (capacity_unless_fallback stops 15%Z 20%Z requests fleet _ _
              Hids outcome bus_B [r2] Hin Hget) as [Hlist Hcap].
  split; [exact Hlist|]. apply Hcap.
  intros d Hd Hon.
  repeat (apply elem_of_cons in Hd as [->|Hd]; [first [reflexivity|discriminate]|]).
  by apply elem_of_nil in Hd.
Defined.

(** The route-geometry provider is down. *)
Definition provider_down : Coord → Coord → list Coord → option ProviderResponse :=
  λ _ _ _, None.

Definition stops_of_A_and_B : list StopEvent :=
  [ {| stop_kind := pickup; stop_requestId := Some "r1"; stopId := "S1";
       coords := (1%float, 1%float); priority := 0 |};
    {| stop_kind := pickup; stop_requestId := Some "r2"; stopId := "S3";
       coords := (3%float, 3%float); priority := 1 |};
    {| stop_kind := dropoff; stop_requestId := Some "r1"; stopId := "S2";
       coords := (2%float, 2%float); priority := 100 |};
    {| stop_kind := dropoff; stop_requestId := Some "r2"; stopId := "S2";
       coords := (2%float, 2%float); priority := 101 |} ].

Definition degraded_route : RouteResult :=
  {| route := []; distance := 0; duration := 0;
     waypoints := Some (coords <$> stops_of_A_and_B);
     sequence := Some stops_of_A_and_B |}.

Lemma local_run :
  Local._calculate_route_locally stops provider_down "A" [r1; r2]
  = Ok degraded_route.
Proof. vm_compute. reflexivity. Qed.

Lemma pickup_precedes_dropoff_witness : precedence stops_of_A_and_B.
Proof.
  apply (proj1 pickup_precedes_dropoff stops provider_down "A" [r1; r2]
           degraded_route stops_of_A_and_B).
  - vm_compute. reflexivity.
  - reflexivity.
Defined.


Lemma waypoints_aligned_witness :
  ∃ S w q,
    Local.all_stops_of stops [r1; r2] = Ok S
    ∧ waypoints degraded_route = Some w ∧ sequence degraded_route = Some q
    ∧ w = take 23 (coords <$> S) ∧ q = take 23 S
    ∧ length w = length q
    ∧ ∀ i, w !! i = coords <$> q !! i.
Proof.
  apply (proj1 waypoints_aligned_with_sequence stops provider_down "A"
           [r1; r2] degraded_route).
  vm_compute. reflexivity.
Defined.

Lemma provider_failure_degrades_witness :
  Local._calculate_route_locally stops provider_down "A" [r1; r2]
  = Ok {| route := []; distance := 0; duration := 0;
          waypoints :=
            Some (limit_waypoints (coords <$> stops_of_A_and_B)
                    stops_of_A_and_B).1;
          sequence :=
            Some (limit_waypoints (coords <$> stops_of_A_and_B)
                    stops_of_A_and_B).2 |}.
Proof.
  apply (provider_failure_degrades stops provider_down "A" [r1; r2]
           stops_of_A_and_B).
  - vm_compute. reflexivity.
  - cbn. lia.
  - reflexivity.
Defined.

(** A request without pickup instant next to a dated one. *)
Definition r_undated : Request :=
  {| requestId := Some "r4"; originStopId := "S3"; destStopId := "S1";
     requestedPickupAt := Null |}.

Lemma mixed_pickup_instants_raise_witness :
  Local._calculate_route_locally stops provider_down "A" [r1; r_undated]
  = Raise TypeError.
Proof.
  apply (proj1 mixed_pickup_instants_raise stops provider_down "A"
           [r1; r_undated] r1 r_undated 0%Z).
  - left.
  - right; left.
  - reflexivity.
  - left; reflexivity.
Defined.

(** A store of two items, one dated and one without pickup instant, and a
    clock that knows the one date of the scenario. *)
Definition strptime (s : string) : option datetime :=
  if String.eqb s "2025-09-21 08:00:00" then Some 0%Z else None.

Definition fromtimestamp (z : Z) : Exc datetime := Ok (z * 1000000)%Z.

Definition items : list Item :=
  [ {| item_requestId := Some "r1"; item_originStopId := "S1";
       item_destStopId := "S2";
       item_requestedPickupAt := RawText "2025-09-21 08:00:00" |};
    {| item_requestId := Some "r0"; item_originStopId := "S3";
       item_destStopId := "S2"; item_requestedPickupAt := RawMissing |} ].

Definition r0 : Request :=
  {| requestId := Some "r0"; originStopId := "S3"; destStopId := "S2";
     requestedPickupAt := Missing |}.


End Scenario.

(** * Further properties of the assignment engine *)

Module PyMinFacts.

Section MinFacts.
Context {A : Type}.
Variable key : A → Exc nat.

(** [min] returns the first element of least key. *)
Lemma min_from_first_least (l : list A) :
  ∀ best kbest v,
    Py.min_from key best kbest l = Ok v →
    (v = best ∧ ∀ x kx, x ∈ l → key x = Ok kx → kbest ≤ kx)
    ∨ ∃ l1 l2 kv,
        l = l1 ++ v :: l2 ∧ key v = Ok kv ∧ kv < kbest
        ∧ (∀ x kx, x ∈ l1 → key x = Ok kx → kv < kx)
        ∧ (∀ x kx, x ∈ l2 → key x = Ok kx → kv ≤ kx).
Proof.
  induction l as [|x l IH]; intros best kbest v; cbn [Py.min_from].
  - intros [= <-]. left. split; [done|].
    intros x kx Hx. by apply elem_of_nil in Hx.
  - intros H. apply PyFacts.bind_Ok in H as (kx & Hkx & H).
    destruct (kx <? kbest)%nat eqn:E.
    + apply Nat.ltb_lt in E. apply IH in H as [[-> Hall]|H].
      * right. exists [], l, kx. repeat split; try done.
        intros y ky Hy. by apply elem_of_nil in Hy.
      * destruct H as (l1 & l2 & kv & -> & Hv & Hlt & H1 & H2).
        right. exists (x :: l1), l2, kv. repeat split; try done; [lia|].
        intros y ky Hy Hky. apply elem_of_cons in Hy as [->|Hy]; [|by eauto].
        rewrite Hkx in Hky. injection Hky as <-. lia.
    + apply Nat.ltb_ge in E. apply IH in H as [[-> Hall]|H].
      * left. split; [done|]. intros y ky Hy Hky.
        apply elem_of_cons in Hy as [->|Hy]; [|by eauto].
        rewrite Hkx in Hky. injection Hky as <-. lia.
      * destruct H as (l1 & l2 & kv & -> & Hv & Hlt & H1 & H2).
        right. exists (x :: l1), l2, kv. repeat split; try done.
        intros y ky Hy Hky. apply elem_of_cons in Hy as [->|Hy]; [|by eauto].
        rewrite Hkx in Hky. injection Hky as <-. lia.
Qed.

Lemma min_first_least (l : list A) (v : A) :
  Py.min key l = Ok v →
  ∃ l1 l2 kv,
    l = l1 ++ v :: l2 ∧ key v = Ok kv
    ∧ (∀ x kx, x ∈ l1 → key x = Ok kx → kv < kx)
    ∧ (∀ x kx, x ∈ l2 → key x = Ok kx → kv ≤ kx).
Proof.
  destruct l as [|x l]; cbn [Py.min]; [discriminate|].
  intros H. apply PyFacts.bind_Ok in H as (kx & Hkx & H).
  apply min_from_first_least in H as [[-> Hall]|H].
  - exists [], l, kx. repeat split; try done.
    intros y ky Hy. by apply elem_of_nil in Hy.
  - destruct H as (l1 & l2 & kv & -> & Hv & Hlt & H1 & H2).
    exists (x :: l1), l2, kv. repeat split; try done.
    intros y ky Hy Hky. apply elem_of_cons in Hy as [->|Hy]; [|by eauto].
    rewrite Hkx in Hky. injection Hky as <-. lia.
Qed.

End MinFacts.

End PyMinFacts.

Module AssignmentInvariants.

Import Assignment AssignmentFacts Feasibility FeasibilityFacts Cost PyFacts.

Section WithStops.
Variable stops_table : gmap string StopItem.
Variables max_wait_minutes max_travel_minutes : Z.

Lemma getitem_Ok (a : gmap string (list Request)) (vid : string)
    (l : list Request) :
  getitem a vid = Ok l → a !! vid = Some l.
Proof. unfold getitem. destruct (a !! vid); by intros [= ->]. Qed.

Lemma append_to_Ok (a a' : gmap string (list Request)) (vid : string)
    (r : Request) :
  append_to a vid r = Ok a' →
  ∃ l, a !! vid = Some l ∧ a' = <[vid := l ++ [r]]> a.
Proof.
  unfold append_to. intros H. apply bind_Ok in H as (l & Hl & [= <-]).
  exists l. split; [by apply getitem_Ok|done].
Qed.

(** A vehicle the inner loop newly selects passed the three checks. *)
Lemma best_vehicle_loop_feasible (vehicles : list Vehicle)
    (a : gmap string (list Request)) (request : Request) :
  ∀ best c seen best' c' seen',
    best_vehicle_loop stops_table max_wait_minutes max_travel_minutes
      vehicles a request best c seen = Ok (best', c', seen') →
    best' = best
    ∨ ∃ v, best' = Some v ∧ v ∈ vehicles
           ∧ feasible max_wait_minutes max_travel_minutes a request v.
Proof.
  induction vehicles as [|v rest IH]; intros best c seen best' c' seen';
    cbn [best_vehicle_loop].
  - intros [= <- _ _]. by left.
  - intros H. apply bind_Ok in H as (l & Hget & H). apply getitem_Ok in Hget.
    assert (Hskip :
      best_vehicle_loop stops_table max_wait_minutes max_travel_minutes
        rest a request best c seen = Ok (best', c', seen') →
      best' = best
      ∨ ∃ v0, best' = Some v0 ∧ v0 ∈ v :: rest
              ∧ feasible max_wait_minutes max_travel_minutes a request v0).
    { intros Hrun. apply IH in Hrun as [->|(v0 & -> & Hin & Hf)]; [by left|].
      right. exists v0. repeat split; [by right|done]. }
    destruct (capacity_of v <=? length l)%nat eqn:Ecap; [by apply Hskip|].
    destruct (_violates_waiting_time request l max_wait_minutes) eqn:Ew;
      [by apply Hskip|].
    destruct (_violates_travel_duration request l max_travel_minutes) eqn:Et;
      [by apply Hskip|].
    apply Nat.leb_gt in Ecap.
    assert (Hf : feasible max_wait_minutes max_travel_minutes a request v)
      by (exists l; done).
    apply bind_Ok in H as (cost & _ & H).
    destruct (cost <? c)%float.
    + apply IH in H as [->|(v0 & -> & Hin & Hf0)]; right.
      * exists v. repeat split; [by left|done].
      * exists v0. repeat split; [by right|done].
    + apply IH in H as [->|(v0 & -> & Hin & Hf0)]; [by left|right].
      exists v0. repeat split; [by right|done].
Qed.

(** One turn of the main loop, read off a successful run. *)
Lemma assign_step_detail (vehicles : list Vehicle)
    (a : gmap string (list Request)) (log : list Placement) (r : Request)
    (st' : gmap string (list Request) * list Placement) :
  assign_step stops_table max_wait_minutes max_travel_minutes vehicles
    (a, log) r = Ok st' →
  (¬ origin_resolves stops_table r ∧ st' = (a, log))
  ∨ (origin_resolves stops_table r
     ∧ ∃ v l d,
         v ∈ vehicles ∧ a !! vehicleId v = Some l
         ∧ st' = (<[vehicleId v := l ++ [r]]> a, log ++ [d])
         ∧ placed d = r ∧ placed_on d = vehicleId v
         ∧ (forced d = false →
            feasible max_wait_minutes max_travel_minutes a r v)
         ∧ (forced d = true →
            ∃ l1 l2,
              vehicles = l1 ++ v :: l2
              ∧ (∀ x lx, x ∈ l1 → a !! vehicleId x = Some lx →
                   length l < length lx)
              ∧ (∀ x lx, x ∈ l2 → a !! vehicleId x = Some lx →
                   length l ≤ length lx))).
Proof.
  unfold assign_step, origin_resolves.
  destruct (get_stop_coords stops_table (originStopId r)) as [o|] eqn:Ho.
  - intros H. right. split; [by eauto|].
    apply bind_Ok in H as ([[best c] seen] & Hloop & H).
    apply best_vehicle_loop_feasible in Hloop as [->|(v & -> & Hin & Hf)].
    + apply bind_Ok in H as (v & Hmin & H).
      apply bind_Ok in H as (a' & Happ & [= <-]).
      apply append_to_Ok in Happ as (l & Hl & ->).
      apply PyMinFacts.min_first_least in Hmin
        as (l1 & l2 & kv & Hsplit & Hkv & H1 & H2).
      assert (kv = length l) as ->.
      { apply bind_Ok in Hkv as (l' & Hl' & [= <-]).
        apply getitem_Ok in Hl'. congruence. }
      exists v, l. eexists. repeat split; try done.
      * rewrite Hsplit. apply elem_of_app. right. by left.
      * intros _. exists l1, l2. repeat split; [done| |].
        -- intros x lx Hx Hlx. apply (H1 x (length lx) Hx).
           by rewrite (getitem_Some _ _ _ Hlx).
        -- intros x lx Hx Hlx. apply (H2 x (length lx) Hx).
           by rewrite (getitem_Some _ _ _ Hlx).
    + apply bind_Ok in H as (a' & Happ & [= <-]).
      apply append_to_Ok in Happ as (l & Hl & ->).
      exists v, l. eexists. repeat split; try done.
  - intros [= <-]. left. split; [|done]. by intros [? [=]].
Qed.

Section Fleet.
Variable vehicles : list Vehicle.

(** A property of the dictionary and its ghost log that every turn keeps
    is kept by the whole loop. *)
Lemma assign_loop_invariant
    (I : gmap string (list Request) → list Placement → Prop) :
  (∀ a log r a' log',
     I a log →
     assign_step stops_table max_wait_minutes max_travel_minutes vehicles
       (a, log) r = Ok (a', log') →
     I a' log') →
  ∀ rs a log a' log',
    I a log →
    assign_loop stops_table max_wait_minutes max_travel_minutes vehicles
      (a, log) rs = Ok (a', log') →
    I a' log'.
Proof.
  intros Hstep. induction rs as [|r rest IH]; intros a log a' log' HI;
    cbn [assign_loop].
  - by intros [= <- <-].
  - intros H. apply bind_Ok in H as ([a1 log1] & H1 & H).
    eapply IH; [|exact H]. by eapply Hstep.
Qed.

(** The log lists the resolvable requests in the order they were taken. *)
Lemma assign_loop_log (rs : list Request) :
  ∀ a log a' log',
    assign_loop stops_table max_wait_minutes max_travel_minutes vehicles
      (a, log) rs = Ok (a', log') →
    placed <$> log' = (placed <$> log) ++ filter (origin_resolves stops_table) rs.
Proof.
  induction rs as [|r rest IH]; intros a log a' log'; cbn [assign_loop].
  - intros [= <- <-]. by rewrite app_nil_r.
  - intros H. apply bind_Ok in H as ([a1 log1] & H1 & H).
    apply IH in H. rewrite H.
    apply assign_step_detail in H1
      as [[Hno [= -> ->]]|(Hyes & v & l & d & _ & _ & [= -> ->] & Hp & _)].
    + by rewrite filter_cons_False.
    + rewrite filter_cons_True, fmap_app, <- app_assoc by done.
      cbn. by rewrite Hp.
Qed.

(** Each list holds, in order, the requests logged for its key. *)
Definition lists_from_log (a : gmap string (list Request))
    (log : list Placement) : Prop :=
  ∀ vid l, a !! vid = Some l →
    l = placed <$> filter (λ d, placed_on d = vid) log.

Lemma lists_from_log_step (a : gmap string (list Request))
    (log : list Placement) (r : Request)
    (a' : gmap string (list Request)) (log' : list Placement) :
  lists_from_log a log →
  assign_step stops_table max_wait_minutes max_travel_minutes vehicles
    (a, log) r = Ok (a', log') →
  lists_from_log a' log'.
Proof.
  intros HI H.
  apply assign_step_detail in H
    as [[_ [= -> ->]]|(_ & v & l & d & _ & Hl & [= -> ->] & Hp & Hon & _)];
    [done|].
  intros vid l' Hl'. rewrite filter_app, fmap_app.
  destruct (decide (vehicleId v = vid)) as [<-|Hne].
  - rewrite lookup_insert_eq in Hl'. injection Hl' as <-.
    rewrite <- (HI _ _ Hl), filter_cons_True, filter_nil by done.
    by rewrite fmap_cons, fmap_nil, Hp.
  - rewrite lookup_insert_ne in Hl' by done.
    rewrite <- (HI _ _ Hl'), filter_cons_False by congruence.
    by rewrite filter_nil, app_nil_r.
Qed.

End Fleet.

(** With an infinite minimum and a request of infinite cost the inner
    loop selects nothing. *)
Lemma best_vehicle_loop_infinite (vehicles : list Vehicle)
    (a : gmap string (list Request)) (request : Request) :
  get_stop_coords stops_table (destStopId request) = None →
  ∀ best seen best' c' seen',
    best_vehicle_loop stops_table max_wait_minutes max_travel_minutes
      vehicles a request best infinity seen = Ok (best', c', seen') →
    best' = best.
Proof.
  intros Hdest.
  assert (Hcost : ∀ v l, _calculate_assignment_cost stops_table request v l
                         = Ok infinity).
  { intros v l. unfold _calculate_assignment_cost. rewrite Hdest.
    by destruct (get_stop_coords stops_table (originStopId request)). }
  induction vehicles as [|v rest IH]; intros best seen best' c' seen';
    cbn [best_vehicle_loop].
  - by intros [= <- _ _].
  - intros H. apply bind_Ok in H as (l & _ & H).
    destruct (capacity_of v <=? length l)%nat; [by eapply IH|].
    destruct (_violates_waiting_time request l max_wait_minutes);
      [by eapply IH|].
    destruct (_violates_travel_duration request l max_travel_minutes);
      [by eapply IH|].
    rewrite Hcost in H. cbn [mbind Exc_bind] in H.
    change (infinity <? infinity)%float with false in H.
    cbv beta iota in H. by apply IH in H.
Qed.

Lemma assign_step_unresolvable_dest (vehicles : list Vehicle)
    (a : gmap string (list Request)) (log : list Placement) (r : Request)
    (a' : gmap string (list Request)) (log' : list Placement) :
  get_stop_coords stops_table (destStopId r) = None →
  assign_step stops_table max_wait_minutes max_travel_minutes vehicles
    (a, log) r = Ok (a', log') →
  log' = log ∨ ∃ d, log' = log ++ [d] ∧ placed d = r ∧ forced d = true.
Proof.
  intros Hdest. unfold assign_step.
  destruct (get_stop_coords stops_table (originStopId r)) as [o|];
    [|intros [= <- <-]; by left].
  intros H. right.
  apply bind_Ok in H as ([[best c] seen] & Hloop & H).
  apply (best_vehicle_loop_infinite _ _ _ Hdest) in Hloop as ->.
  apply bind_Ok in H as (v & _ & H).
  apply bind_Ok in H as (a1 & _ & [= <- <-]). by eexists.
Qed.

(** Without vehicles the loop returns on unresolvable requests only. *)
Lemma assign_loop_no_fleet (rs : list Request) :
  ∀ a log,
    (Forall (λ r, ¬ origin_resolves stops_table r) rs →
     assign_loop stops_table max_wait_minutes max_travel_minutes []
       (a, log) rs = Ok (a, log))
    ∧ (Exists (origin_resolves stops_table) rs →
       assign_loop stops_table max_wait_minutes max_travel_minutes []
         (a, log) rs = Raise ValueError).
Proof.
  induction rs as [|r rest IH]; intros a log; cbn [assign_loop].
  - split; [done|]. intros H. by apply Exists_nil in H.
  - unfold assign_step, origin_resolves in *.
    destruct (get_stop_coords stops_table (originStopId r)) as [o|] eqn:Ho;
      cbn.
    + split; [|done]. intros H. apply Forall_cons in H as [H _].
      exfalso. apply H. rewrite Ho. by eexists.
    + split.
      * intros H. apply Forall_cons in H as [_ H]. by apply IH.
      * intros H. apply Exists_cons in H as [H|H]; [|by apply IH].
        rewrite Ho in H. by destruct H as [? [=]].
Qed.

End WithStops.

End AssignmentInvariants.

(** Sorting with a comparison that decides a transitive order. *)
Module PySortedOrder.

Section Ordered.
Context {A K : Type}.
Variable lt : K → K → Exc bool.
Variable key : A → K.
Variable R : relation A.
Hypothesis lt_true : ∀ x y, lt (key x) (key y) = Ok true → R x y.
Hypothesis lt_false : ∀ x y, lt (key x) (key y) = Ok false → R y x.
Hypothesis R_trans : Transitive R.

Lemma insert_sorted (x : A) (l r : list A) :
  StronglySorted R l → Py.insert lt key x l = Ok r → StronglySorted R r.
Proof.
  revert r; induction l as [|y l IH]; intros r Hl; cbn [Py.insert].
  - intros [= <-]. repeat constructor.
  - intros H. apply PyFacts.bind_Ok in H as (b & Hb & H).
    inversion Hl as [|? ? Hs Hall]; subst. destruct b.
    + injection H as <-. apply lt_true in Hb.
      constructor; [done|]. constructor; [done|].
      eapply Forall_impl; [exact Hall|]. intros z Hz. by etrans.
    + apply PyFacts.bind_Ok in H as (r' & Hr' & [= <-]).
      apply lt_false in Hb. constructor; [by apply IH|].
      rewrite (PyFacts.insert_perm _ _ _ _ _ Hr'). by constructor.
Qed.

Lemma sorted_from_sorted (acc l r : list A) :
  StronglySorted R acc → Py.sorted_from lt key acc l = Ok r →
  StronglySorted R r.
Proof.
  revert acc r; induction l as [|x l IH]; intros acc r Hacc;
    cbn [Py.sorted_from].
  - by intros [= <-].
  - intros H. apply PyFacts.bind_Ok in H as (acc' & Hins & H).
    eapply IH; [|exact H]. by eapply insert_sorted.
Qed.

Lemma sorted_sorted (l r : list A) :
  Py.sorted lt key l = Ok r → StronglySorted R r.
Proof. apply sorted_from_sorted. constructor. Qed.

End Ordered.

Lemma StronglySorted_filter {A : Type} (R : relation A) (P : A → Prop)
    `{∀ x, Decision (P x)} (l : list A) :
  StronglySorted R l → StronglySorted R (filter P l).
Proof.
  induction 1 as [|x l Hs IH Hall]; [constructor|].
  destruct (decide (P x)).
  - rewrite filter_cons_True by done. constructor; [done|].
    apply Forall_forall. intros y Hy. apply list_elem_of_filter in Hy as [_ Hy].
    rewrite Forall_forall in Hall. by apply Hall.
  - by rewrite filter_cons_False.
Qed.

Lemma StronglySorted_fmap_filter {A B : Type} (f : A → B) (R : relation B)
    (P : A → Prop) `{∀ x, Decision (P x)} (l : list A) :
  StronglySorted R (f <$> l) → StronglySorted R (f <$> filter P l).
Proof.
  induction l as [|x l IH]; [done|]. rewrite fmap_cons. intros Hs.
  inversion Hs as [|? ? Hs' Hall]; subst.
  destruct (decide (P x)).
  - rewrite filter_cons_True, fmap_cons by done. constructor; [by apply IH|].
    apply Forall_forall. intros y Hy.
    apply list_elem_of_fmap in Hy as (z & -> & Hz).
    apply list_elem_of_filter in Hz as [_ Hz].
    rewrite Forall_forall in Hall. apply Hall.
    apply list_elem_of_fmap. by exists z.
  - rewrite filter_cons_False by done. by apply IH.
Qed.

End PySortedOrder.

Module AssignmentProperties.

Import Assignment AssignmentFacts AssignmentInvariants.
Import Feasibility FeasibilityFacts Cost PyFacts.

(** No placement on this key went through the fallback branch. *)
Definition no_fallback_on (vid : string) (log : list Placement) : Prop :=
  ∀ d, d ∈ log → placed_on d = vid → forced d = false.


(** The sort key of the assignment loop as a number. *)
Definition pickup_time (r : Request) : Z := default 0%Z (instant r).

Lemma no_fallback_on_app (vid : string) (log : list Placement) (d : Placement) :
  no_fallback_on vid (log ++ [d]) →
  no_fallback_on vid log ∧ (placed_on d = vid → forced d = false).
Proof.
  intros H. split.
  - intros d' Hd'. apply H, elem_of_app. by left.
  - apply H, elem_of_app. right. by left.
Qed.


Lemma run_unpack (stops : gmap string StopItem) (mw mt : Z)
    (requests : list Request) (vehicles : list Vehicle)
    (a : gmap string (list Request)) (log : list Placement) :
  assign_with_log stops mw mt requests vehicles = Ok (a, log) →
  ∃ rs,
    Py.sorted py_lt get_pickup_datetime requests = Ok rs
    ∧ assign_loop stops mw mt vehicles
        (list_to_map ((λ vehicle, (vehicleId vehicle, [])) <$> vehicles), [])
        rs = Ok (a, log).
Proof.
  unfold assign_with_log. intros H. apply bind_Ok in H as (rs & Hrs & H).
  by exists rs.
Qed.

Lemma result_unpack (stops : gmap string StopItem) (mw mt : Z)
    (requests : list Request) (vehicles : list Vehicle)
    (a : gmap string (list Request)) :
  assign_requests_to_vehicles stops mw mt requests vehicles = Ok a →
  ∃ log, assign_with_log stops mw mt requests vehicles = Ok (a, log).
Proof.
  unfold assign_requests_to_vehicles. intros H.
  apply bind_Ok in H as ([a' log] & Hrun & [= <-]). by exists log.
Qed.


(** X2. Travel bound: a vehicle that received nothing through the
    fallback branch holds at most one request, or a number of requests
    [n] with [6 * n <= max_travel_minutes] (at most 3 for the default of
    20 minutes). *)
Theorem travel_bound_unless_fallback (stops : gmap string StopItem)
    (max_wait_minutes max_travel_minutes : Z)
    (requests : list Request) (vehicles : list Vehicle)
    (a : gmap string (list Request)) (log : list Placement) :
  assign_with_log stops max_wait_minutes max_travel_minutes requests vehicles
    = Ok (a, log) →
  ∀ vid l, a !! vid = Some l → no_fallback_on vid log →
    length l ≤ 1 ∨ (6 * Z.of_nat (length l) ≤ max_travel_minutes)%Z.
Proof.
  intros Hrun. apply run_unpack in Hrun as (rs & _ & Hrun).
  revert Hrun.
  apply (assign_loop_invariant stops max_wait_minutes max_travel_minutes
           vehicles
           (λ a log, ∀ vid l, a !! vid = Some l → no_fallback_on vid log →
              length l ≤ 1 ∨ (6 * Z.of_nat (length l) ≤ max_travel_minutes)%Z)).
  - clear. intros a log r a' log' HI Hstep.
    apply assign_step_detail in Hstep
      as [[_ [= -> ->]]|(_ & v & l & d & _ & Hl & [= -> ->] & _ & Hon & Hf & _)];
      [done|].
    intros vid l1 Hl1 Hnf. apply no_fallback_on_app in Hnf as [Hnf Hd].
    destruct (decide (vehicleId v = vid)) as [<-|Hne].
    + rewrite lookup_insert_eq in Hl1. injection Hl1 as <-.
      destruct (Hf (Hd Hon)) as (l0 & Hl0 & _ & _ & Ht).
      assert (l0 = l) as -> by congruence.
      unfold _violates_travel_duration in Ht. destruct l as [|e rest].
      * left. cbn. lia.
      * right. apply Z.ltb_ge in Ht. lia.
    + rewrite lookup_insert_ne in Hl1 by done. by eapply HI.
  - intros vid l Hl _.
    destruct (initial_assignments vehicles) as (_ & _ & Hnil).
    rewrite (Hnil _ _ Hl). left. cbn. lia.
Qed.

(** X3. Pickup order: every vehicle list of the result is in ascending
    order of requested pickup instant, a request without known instant
    counting as instant zero. *)
Theorem lists_in_pickup_order (stops : gmap string StopItem)
    (max_wait_minutes max_travel_minutes : Z)
    (requests : list Request) (vehicles : list Vehicle)
    (a : gmap string (list Request)) :
  assign_requests_to_vehicles stops max_wait_minutes max_travel_minutes
    requests vehicles = Ok a →
  ∀ vid l, a !! vid = Some l →
    StronglySorted (λ x y, (pickup_time x ≤ pickup_time y)%Z) l.
Proof.
  intros Hres. apply result_unpack in Hres as (log & Hrun).
  apply run_unpack in Hrun as (rs & Hrs & Hrun).
  intros vid l Hl.
  assert (Hsorted :
    StronglySorted (λ x y, (pickup_time x ≤ pickup_time y)%Z) rs).
  { eapply (PySortedOrder.sorted_sorted py_lt get_pickup_datetime);
      [| |by intros x y z ? ?; etrans|exact Hrs].
    - intros x y. unfold get_pickup_datetime, pickup_time. cbn.
      intros [= H]. apply Z.ltb_lt in H. lia.
    - intros x y. unfold get_pickup_datetime, pickup_time. cbn.
      intros [= H]. apply Z.ltb_ge in H. lia. }
  pose proof (assign_loop_log _ _ _ _ _ _ _ _ _ Hrun) as Hlog.
  cbn [fmap list_fmap app] in Hlog.
  assert (Hlists : lists_from_log a log).
  { revert Hrun.
    apply (assign_loop_invariant stops max_wait_minutes max_travel_minutes
             vehicles lists_from_log).
    - intros ? ? ? ? ?. apply lists_from_log_step.
    - intros vid' l' Hl'.
      destruct (initial_assignments vehicles) as (_ & _ & Hnil).
      by rewrite (Hnil _ _ Hl'). }
  rewrite (Hlists _ _ Hl).
  apply PySortedOrder.StronglySorted_fmap_filter. rewrite Hlog.
  by apply PySortedOrder.StronglySorted_filter.
Qed.

(** X4. Empty fleet: without any vehicle the function raises [ValueError]
    as soon as one request has a resolvable origin, and returns the empty
    dictionary when none has. *)
Theorem empty_fleet (stops : gmap string StopItem)
    (max_wait_minutes max_travel_minutes : Z) (requests : list Request) :
  (Exists (origin_resolves stops) requests →
   assign_requests_to_vehicles stops max_wait_minutes max_travel_minutes
     requests [] = Raise ValueError)
  ∧ (Forall (λ r, ¬ origin_resolves stops r) requests →
     assign_requests_to_vehicles stops max_wait_minutes max_travel_minutes
       requests [] = Ok ∅).
Proof.
  unfold assign_requests_to_vehicles, assign_with_log.
  destruct (sorted_total py_lt get_pickup_datetime) with (l := requests)
    as [rs Hrs]; [intros x y; unfold get_pickup_datetime; cbn; by eauto|].
  rewrite Hrs. cbn [mbind Exc_bind fmap list_fmap list_to_map foldr].
  pose proof (sorted_perm _ _ _ _ Hrs) as Hperm.
  destruct (assign_loop_no_fleet stops max_wait_minutes max_travel_minutes
              rs ∅ []) as [Hnone Hsome].
  split; intros H.
  - rewrite Hsome; [done|]. apply Exists_exists.
    apply Exists_exists in H as (r & Hr & Hres). exists r.
    by rewrite Hperm.
  - rewrite Hnone; [done|]. apply Forall_forall. intros r Hr.
    rewrite Forall_forall in H. apply H. by rewrite <- Hperm.
Qed.

(** X5. A request whose destination stop does not resolve is always
    placed through the fallback branch. *)
Theorem unresolvable_destination_falls_back (stops : gmap string StopItem)
    (max_wait_minutes max_travel_minutes : Z)
    (requests : list Request) (vehicles : list Vehicle)
    (a : gmap string (list Request)) (log : list Placement) :
  assign_with_log stops max_wait_minutes max_travel_minutes requests vehicles
    = Ok (a, log) →
  ∀ d, d ∈ log →
    get_stop_coords stops (destStopId (placed d)) = None →
    forced d = true.
Proof.
  intros Hrun. apply run_unpack in Hrun as (rs & _ & Hrun).
  revert Hrun.
  apply (assign_loop_invariant stops max_wait_minutes max_travel_minutes
           vehicles
           (λ _ log, ∀ d, d ∈ log →
              get_stop_coords stops (destStopId (placed d)) = None →
              forced d = true)).
  - clear. intros a log r a' log' HI Hstep d Hd Hdest.
    destruct (get_stop_coords stops (destStopId r)) as [c|] eqn:Hr.
    + apply assign_step_detail in Hstep
        as [[_ [= -> ->]]|(_ & v & l & d0 & _ & _ & [= -> ->] & Hp & _)];
        [by apply HI|].
      apply elem_of_app in Hd as [Hd|Hd]; [by apply HI|].
      apply list_elem_of_singleton in Hd as ->. congruence.
    + apply (assign_step_unresolvable_dest _ _ _ _ _ _ _ _ _ Hr) in Hstep
        as [->|(d0 & -> & _ & Hforced)]; [by apply HI|].
      apply elem_of_app in Hd as [Hd|Hd]; [by apply HI|].
      by apply list_elem_of_singleton in Hd as ->.
  - intros d Hd. by apply elem_of_nil in Hd.
Qed.

(** X6. When the fallback branch places a request, it goes to the first
    vehicle, in fleet order, among those with the fewest assigned
    requests at that moment. *)
Theorem fallback_picks_first_least_loaded (stops : gmap string StopItem)
    (max_wait_minutes max_travel_minutes : Z) (vehicles : list Vehicle)
    (a a' : gmap string (list Request)) (log : list Placement)
    (r : Request) (d : Placement) :
  assign_step stops max_wait_minutes max_travel_minutes vehicles (a, log) r
    = Ok (a', log ++ [d]) →
  forced d = true →
  ∃ l1 v l2 l,
    vehicles = l1 ++ v :: l2
    ∧ placed_on d = vehicleId v ∧ a !! vehicleId v = Some l
    ∧ a' = <[vehicleId v := l ++ [r]]> a
    ∧ (∀ x lx, x ∈ l1 → a !! vehicleId x = Some lx → length l < length lx)
    ∧ (∀ x lx, x ∈ l2 → a !! vehicleId x = Some lx → length l ≤ length lx).
Proof.
  intros Hstep Hforced.
  apply assign_step_detail in Hstep
    as [[_ [= _ Hlog]]|(_ & v & l & d0 & _ & Hl & [= -> Hlog] & _ & Hon & _ & Hmin)].
  - apply (f_equal length) in Hlog. rewrite length_app in Hlog. cbn in Hlog. lia.
  - apply app_inj_tail in Hlog as [_ ->].
    destruct (Hmin Hforced) as (l1 & l2 & -> & H1 & H2).
    by exists l1, v, l2, l.
Qed.

End AssignmentProperties.

(** * Order of binary64 comparisons

    [<?] and [<=?] on floats, read through the specification of the
    primitive operations: floats other than NaN sit on a line. *)

Module FloatOrder.
Import SpecFloat.

(** The place of a float that is not NaN on a line of integer triples
    ordered lexicographically. *)
Definition rank (f : spec_float) : option (Z * Z * Z) :=
  match f with
  | S754_nan => None
  | S754_infinity true => Some (-2, 0, 0)%Z
  | S754_infinity false => Some (2, 0, 0)%Z
  | S754_zero _ => Some (0, 0, 0)%Z
  | S754_finite true m e => Some (-1, - e, Z.neg m)%Z
  | S754_finite false m e => Some (1, e, Z.pos m)%Z
  end.

Definition lex_cmp (a b : Z * Z * Z) : comparison :=
  match (a.1.1 ?= b.1.1)%Z with
  | Eq => match (a.1.2 ?= b.1.2)%Z with
          | Eq => (a.2 ?= b.2)%Z
          | c => c
          end
  | c => c
  end.

Definition lex_lt (a b : Z * Z * Z) : Prop :=
  (a.1.1 < b.1.1
   ∨ (a.1.1 = b.1.1 ∧ (a.1.2 < b.1.2 ∨ (a.1.2 = b.1.2 ∧ a.2 < b.2))))%Z.

Lemma SFcompare_rank (f g : spec_float) :
  SFcompare f g = a ← rank f; b ← rank g; Some (lex_cmp a b).
Proof.
  destruct f as [[]|[]| |[] m e], g as [[]|[]| |[] m' e']; try reflexivity.
  cbn. unfold lex_cmp. cbn. rewrite Z.compare_opp, (Z.compare_antisym e e').
  by destruct (e ?= e')%Z.
Qed.

Lemma lex_cmp_Lt (a b : Z * Z * Z) : lex_cmp a b = Lt ↔ lex_lt a b.
Proof.
  unfold lex_cmp, lex_lt.
  destruct (Z.compare_spec a.1.1 b.1.1); destruct (Z.compare_spec a.1.2 b.1.2);
    destruct (Z.compare_spec a.2 b.2); split; intros; try done; lia.
Qed.


Lemma ltb_rank (x y : float) :
  (x <? y)%float = true
  ↔ ∃ a b, rank (FloatOps.Prim2SF x) = Some a
           ∧ rank (FloatOps.Prim2SF y) = Some b ∧ lex_lt a b.
Proof.
  rewrite FloatAxioms.ltb_spec. unfold SFltb. rewrite SFcompare_rank.
  destruct (rank (FloatOps.Prim2SF x)) as [a|],
           (rank (FloatOps.Prim2SF y)) as [b|]; cbn.
  - split.
    + destruct (lex_cmp a b) eqn:E; try done. intros _.
      exists a, b. repeat split. by apply lex_cmp_Lt.
    + intros (a0 & b0 & [= <-] & [= <-] & H).
      apply lex_cmp_Lt in H. by rewrite H.
  - split; [done|]. by intros (? & ? & ? & ? & ?).
  - split; [done|]. by intros (? & ? & ? & ? & ?).
  - split; [done|]. by intros (? & ? & ? & ? & ?).
Qed.



Lemma ltb_irrefl (x : float) : (x <? x)%float = false.
Proof.
  destruct (x <? x)%float eqn:E; [|done].
  apply ltb_rank in E as (a & b & Ha & Hb & Hab). simplify_eq.
  unfold lex_lt in Hab. lia.
Qed.



End FloatOrder.

(** * The greedy choice of the inner loop *)

Module GreedyChoice.

Import Assignment AssignmentFacts AssignmentInvariants Feasibility Cost PyFacts.
Import FloatOrder.

Section WithStops.
Variable stops_table : gmap string StopItem.
Variables max_wait_minutes max_travel_minutes : Z.
Variable a : gmap string (list Request).
Variable request : Request.



End WithStops.


End GreedyChoice.

(** * Further properties of the sequencing engine *)

Module SequencingMore.

Import Sequencing SequencingFacts PyFacts.

Section BuildEvents.
Context {R : Type}.
Variables (rid : R → option string) (origin dest : R → string).
Variable pickup_key : R → sort_key.
Variable resolve : string → option Coord.

Lemma add_pickups_events (rs : list R) :
  ∀ i acc po acc' po',
    add_pickups rid origin resolve i rs acc po = (acc', po') →
    ∃ new,
      acc' = acc ++ new
      ∧ (∀ e, e ∈ new →
           stop_kind e = pickup ∧ resolve (stopId e) = Some (coords e)
           ∧ i ≤ priority e < i + length rs)
      ∧ length new = length (filter (λ r, is_Some (resolve (origin r))) rs).
Proof.
  induction rs as [|req rest IH]; intros i acc po acc' po' H; cbn in H.
  - injection H as <- <-. exists []. split; [by rewrite app_nil_r|].
    split; [|done]. intros e He. by apply elem_of_nil in He.
  - destruct (resolve (origin req)) as [o|] eqn:Ho.
    + apply IH in H as (new & -> & Hnew & Hlen).
      eexists (_ :: new). split; [by rewrite <- app_assoc|]. split.
      * intros e He. apply elem_of_cons in He as [->|He].
        -- cbn. repeat split; [done|lia|lia].
        -- destruct (Hnew e He) as (? & ? & ?). cbn. repeat split; [done..|lia|lia].
      * rewrite filter_cons_True by (cbn; rewrite Ho; by eexists).
        cbn. by rewrite Hlen.
    + apply IH in H as (new & -> & Hnew & Hlen).
      exists new. split; [done|]. split.
      * intros e He. destruct (Hnew e He) as (? & ? & ?). cbn.
        repeat split; [done..|lia|lia].
      * rewrite filter_cons_False; [done|]. cbn. rewrite Ho. by intros [? [=]].
Qed.

Lemma add_dropoffs_events (rs : list R) (po : gmap (option string) nat) :
  ∀ acc, ∃ new,
    add_dropoffs rid dest resolve rs po acc = acc ++ new
    ∧ (∀ e, e ∈ new →
         stop_kind e = dropoff ∧ resolve (stopId e) = Some (coords e)
         ∧ 100 ≤ priority e)
    ∧ length new = length (filter (λ r, is_Some (resolve (dest r))) rs).
Proof.
  induction rs as [|req rest IH]; intros acc; cbn [add_dropoffs].
  - exists []. split; [by rewrite app_nil_r|]. split; [|done].
    intros e He. by apply elem_of_nil in He.
  - destruct (resolve (dest req)) as [d|] eqn:Hd.
    + destruct (IH (acc ++ [{| stop_kind := dropoff; stop_requestId := rid req;
                            stopId := dest req; coords := d;
                            priority := default 999 (po !! rid req) + 100 |}]))
        as (new & -> & Hnew & Hlen).
      eexists (_ :: new). split; [by rewrite <- app_assoc|]. split.
      * intros e He. apply elem_of_cons in He as [->|He]; [|by apply Hnew].
        cbn. repeat split; [done|lia].
      * rewrite filter_cons_True by (cbn; rewrite Hd; by eexists).
        cbn. by rewrite Hlen.
    + destruct (IH acc) as (new & -> & Hnew & Hlen).
      exists new. split; [done|]. split; [done|].
      rewrite filter_cons_False; [done|]. cbn. rewrite Hd. by intros [? [=]].
Qed.

(** What [build_stops] returns: events in ascending priority, each on a
    stop that resolves to the coordinate it carries, pickups numbered
    below the number of requests and dropoffs from 100 on, one event per
    resolvable origin and one per resolvable destination. *)
Lemma build_stops_events (requests : list R) (S : list StopEvent) :
  build_stops rid origin dest pickup_key resolve requests = Ok S →
  ascending priority S
  ∧ (∀ e, e ∈ S →
       resolve (stopId e) = Some (coords e)
       ∧ match stop_kind e with
         | pickup => priority e < length requests
         | dropoff => 100 ≤ priority e
         end)
  ∧ length S
    = length (filter (λ r, is_Some (resolve (origin r))) requests)
      + length (filter (λ r, is_Some (resolve (dest r))) requests).
Proof.
  unfold build_stops. intros H.
  apply bind_Ok in H as (rs & Hrs & H).
  pose proof (sorted_perm _ _ _ _ Hrs) as Hperm_rs.
  destruct (add_pickups rid origin resolve 0 rs [] ∅) as [P po] eqn:HP.
  apply add_pickups_events in HP as (new & -> & Hnew & HlenP).
  destruct (add_dropoffs_events rs po ([] ++ new)) as (D & HD & Hdrop & HlenD).
  rewrite HD in H. cbn [app] in H.
  pose proof (sorted_perm _ _ _ _ H) as Hperm.
  split; [by eapply sorted_ascending|]. split.
  - intros e He. rewrite Hperm in He.
    apply elem_of_app in He as [He|He].
    + destruct (Hnew e He) as (-> & ? & ? & ?). split; [done|].
      rewrite <- Hperm_rs. cbn in *. lia.
    + destruct (Hdrop e He) as (-> & ? & ?). done.
  - rewrite Hperm, length_app, HlenP, HlenD. by rewrite Hperm_rs.
Qed.

End BuildEvents.

Lemma ascending_take {A : Type} (key : A → nat) (n : nat) (l : list A) :
  ascending key l → ascending key (take n l).
Proof.
  intros H. revert n. induction H as [|x l Hs IH Hall]; intros [|n]; cbn;
    try constructor.
  - apply IH.
  - apply Forall_forall. intros y Hy. rewrite Forall_forall in Hall.
    apply Hall. rewrite <- (take_drop n l). apply elem_of_app. by left.
Qed.

Lemma elem_of_take_full {A : Type} (n : nat) (l : list A) (x : A) :
  x ∈ take n l → x ∈ l.
Proof.
  intros H. rewrite <- (take_drop n l). apply elem_of_app. by left.
Qed.

(** X8. In every sequence returned by either sequencing function the
    stop events are in ascending order of priority, and each event sits
    on a stop that resolves to the coordinate it carries: an event whose
    stop does not resolve is never emitted. *)
Theorem sequence_sorted_and_resolved :
  (∀ stops provider vehicle_id requests result seq,
     Local._calculate_route_locally stops provider vehicle_id requests
       = Ok result →
     sequence result = Some seq →
     ascending priority seq
     ∧ ∀ e, e ∈ seq → Cost.get_stop_coords stops (stopId e) = Some (coords e))
  ∧ (∀ stops provider vehicle_id requests result seq,
       Remote.optimize_route stops provider vehicle_id requests = Ok result →
       sequence result = Some seq →
       ascending priority seq
       ∧ ∀ e, e ∈ seq →
           Remote.get_stop_coords stops (stopId e) = Some (coords e)).
Proof.
  split; intros stops provider vid requests result seq Hrun Hseq.
  - apply local_shape in Hrun as (S & HS & _ & Hq).
    rewrite Hq in Hseq. injection Hseq as <-.
    apply build_stops_events in HS as (Hasc & Hev & _).
    split; [by apply ascending_take|].
    intros e He. by apply Hev, (elem_of_take_full 23).
  - apply remote_shape in Hrun as [[_ Hq]|(S & HS & _ & Hq)]; [congruence|].
    rewrite Hq in Hseq. injection Hseq as <-.
    apply build_stops_events in HS as (Hasc & Hev & _).
    split; [by apply ascending_take|].
    intros e He. by apply Hev, (elem_of_take_full 23).
Qed.

(** X9. With at most 100 requests every pickup of the sequence stands
    before every dropoff, whatever the requests they belong to. *)
Theorem pickups_first_up_to_100_requests :
  (∀ stops provider vehicle_id requests result seq,
     Local._calculate_route_locally stops provider vehicle_id requests
       = Ok result →
     sequence result = Some seq →
     length requests ≤ 100 →
     ∀ i j e1 e2,
       seq !! i = Some e1 → seq !! j = Some e2 →
       stop_kind e1 = pickup → stop_kind e2 = dropoff → i < j)
  ∧ (∀ stops provider vehicle_id requests result seq,
       Remote.optimize_route stops provider vehicle_id requests = Ok result →
       sequence result = Some seq →
       length requests ≤ 100 →
       ∀ i j e1 e2,
         seq !! i = Some e1 → seq !! j = Some e2 →
         stop_kind e1 = pickup → stop_kind e2 = dropoff → i < j).
Proof.
  assert (Hgen : ∀ (S : list StopEvent) n,
    ascending priority S →
    (∀ e, e ∈ S → match stop_kind e with
                  | pickup => priority e < n
                  | dropoff => 100 ≤ priority e
                  end) →
    n ≤ 100 →
    ∀ i j e1 e2,
      take 23 S !! i = Some e1 → take 23 S !! j = Some e2 →
      stop_kind e1 = pickup → stop_kind e2 = dropoff → i < j).
  { intros S n Hasc Hev Hn i j e1 e2 H1 H2 K1 K2.
    apply lookup_take_Some in H1 as [H1 _].
    apply lookup_take_Some in H2 as [H2 _].
    eapply (ascending_lookup_lt priority); [exact Hasc|exact H1|exact H2|].
    pose proof (Hev e1 (list_elem_of_lookup_2 _ _ _ H1)) as P1.
    pose proof (Hev e2 (list_elem_of_lookup_2 _ _ _ H2)) as P2.
    rewrite K1 in P1. rewrite K2 in P2. lia. }
  split; intros stops provider vid requests result seq Hrun Hseq Hlen.
  - apply local_shape in Hrun as (S & HS & _ & Hq).
    rewrite Hq in Hseq. injection Hseq as <-.
    apply build_stops_events in HS as (Hasc & Hev & _).
    eapply Hgen; [done| |done]. intros e He. by apply Hev.
  - apply remote_shape in Hrun as [[_ Hq]|(S & HS & _ & Hq)]; [congruence|].
    rewrite Hq in Hseq. injection Hseq as <-.
    apply build_stops_events in HS as (Hasc & Hev & _).
    eapply Hgen; [done| |done]. intros e He. by apply Hev.
Qed.

(** X10. The local function returns normally exactly on the request lists
    that are empty, hold one request, or whose pickup values are all of
    one comparable kind (all [datetime], all absent, or all the number
    0); on every other list it raises [TypeError].  Two requests whose
    instants are both [None] already make it raise. *)
Theorem local_returns_iff_uniform (stops : gmap string StopItem)
    (provider : Coord → Coord → list Coord → option ProviderResponse)
    (vehicle_id : string) (requests : list Request) :
  ((∃ result,
      Local._calculate_route_locally stops provider vehicle_id requests
      = Ok result)
   ↔ uniform Local.pickup_key requests)
  ∧ (¬ uniform Local.pickup_key requests →
     Local._calculate_route_locally stops provider vehicle_id requests
     = Raise TypeError).
Proof.
  split; [split|apply local_not_uniform_raises].
  - intros [result Hrun].
    apply local_shape in Hrun as (S & HS & _).
    unfold Local.all_stops_of, build_stops in HS.
    apply bind_Ok in HS as (rs & Hrs & _). by eapply sorted_uniform.
  - intros Hu. unfold Local._calculate_route_locally.
    destruct requests as [|r rest]; [by eauto|].
    apply sorted_uniform_returns in Hu as [rs Hrs].
    destruct (build_stops_returns requestId originStopId destStopId
                Local.pickup_key (Cost.get_stop_coords stops) _ _ Hrs)
      as [S HS].
    unfold Local.all_stops_of. rewrite HS. cbn [mbind Exc_bind].
    destruct (length (coords <$> S) <? 2)%nat; [by eauto|].
    destruct (limit_waypoints (coords <$> S) S). by eauto.
Qed.

(** The result of both functions, case by case. *)
Definition zero_route (w : option (list Coord)) (q : option (list StopEvent))
    : RouteResult :=
  {| route := []; distance := 0; duration := 0; waypoints := w; sequence := q |}.

Lemma local_cases (stops : gmap string StopItem)
    (provider : Coord → Coord → list Coord → option ProviderResponse)
    (vehicle_id : string) (requests : list Request) (result : RouteResult) :
  Local._calculate_route_locally stops provider vehicle_id requests = Ok result →
  ∃ S, Local.all_stops_of stops requests = Ok S
       ∧ ((length S < 2
           ∧ result = zero_route (Some (coords <$> S)) (Some S))
          ∨ (2 ≤ length S
             ∧ result = route_or_degrade provider (take 23 (coords <$> S))
                          (take 23 S))).
Proof.
  unfold Local._calculate_route_locally. destruct requests as [|r rest].
  - intros [= <-]. exists []. split; [done|]. left. split; [cbn; lia|done].
  - intros H. apply bind_Ok in H as (S & HS & H). exists S. split; [done|].
    destruct (length (coords <$> S) <? 2)%nat eqn:E.
    + injection H as <-. apply Nat.ltb_lt in E. rewrite length_fmap in E.
      left. by split.
    + apply Nat.ltb_ge in E. rewrite length_fmap in E. right. split; [done|].
      unfold limit_waypoints in H.
      destruct (23 <? length (coords <$> S))%nat eqn:E23.
      * by injection H as <-.
      * injection H as <-. apply Nat.ltb_ge in E23.
        rewrite !take_ge; [done| |]; rewrite ?length_fmap in *; lia.
Qed.

Lemma remote_cases (stops : gmap string StopItem)
    (provider : Coord → Coord → list Coord → option ProviderResponse)
    (vehicle_id : string) (requests : list Remote.JsonRequest)
    (result : RouteResult) :
  Remote.optimize_route stops provider vehicle_id requests = Ok result →
  (requests = [] ∧ result = zero_route None None)
  ∨ ∃ S, Remote.all_stops_of stops requests = Ok S
         ∧ ((length S < 2 ∧ result = zero_route None None)
            ∨ (2 ≤ length S
               ∧ result = route_or_degrade provider (take 23 (coords <$> S))
                            (take 23 S))).
Proof.
  unfold Remote.optimize_route. destruct requests as [|r rest].
  - intros [= <-]. by left.
  - intros H. right. apply bind_Ok in H as (S & HS & H). exists S.
    split; [done|].
    destruct (length (coords <$> S) <? 2)%nat eqn:E.
    + injection H as <-. apply Nat.ltb_lt in E. rewrite length_fmap in E.
      left. by split.
    + apply Nat.ltb_ge in E. rewrite length_fmap in E. right. split; [done|].
      unfold limit_waypoints in H.
      destruct (23 <? length (coords <$> S))%nat eqn:E23.
      * by injection H as <-.
      * injection H as <-. apply Nat.ltb_ge in E23.
        rewrite !take_ge; [done| |]; rewrite ?length_fmap in *; lia.
Qed.

(** The provider is called with the first waypoint, the last one and the
    waypoints in between. *)
Lemma call_provider_split
    (provider : Coord → Coord → list Coord → option ProviderResponse)
    (w : list Coord) :
  2 ≤ length w →
  ∃ departure via destination,
    w = departure :: via ++ [destination]
    ∧ call_provider provider w = provider departure destination via.
Proof.
  intros Hlen. destruct w as [|dep tl]; [cbn in Hlen; lia|].
  destruct (exists_last (l := tl)) as (via & dst & ->);
    [intros ->; cbn in Hlen; lia|].
  exists dep, via, dst. split; [done|]. unfold call_provider.
  change (dep :: via ++ [dst]) with ((dep :: via) ++ [dst]).
  rewrite last_snoc. cbn [head].
  unfold Py.slice_1_m1. cbn [tail app]. rewrite removelast_last.
  cbn [head]. destruct via as [|x via]; [done|].
  replace (2 <? length (dep :: (x :: via) ++ [dst]))%nat with true; [done|].
  symmetry. apply Nat.ltb_lt. cbn [length app]. rewrite length_app. cbn. lia.
Qed.

(** X11. What a returned route holds.  With fewer than two waypoints the
    route is empty with distance and duration 0, whatever the provider
    would answer.  With at least two, the provider was asked once, for
    the route from the first waypoint to the last through the waypoints
    in between (at most 21 of them), and the result carries its legs,
    distance and duration, or the zero route if the call failed. *)
Theorem route_from_provider (stops : gmap string StopItem)
    (provider : Coord → Coord → list Coord → option ProviderResponse)
    (vehicle_id : string) (requests : list Request) (result : RouteResult)
    (w : list Coord) :
  Local._calculate_route_locally stops provider vehicle_id requests = Ok result →
  waypoints result = Some w →
  (length w < 2 →
   route result = [] ∧ distance result = 0%float ∧ duration result = 0%float)
  ∧ (2 ≤ length w →
     ∃ departure via destination,
       w = departure :: via ++ [destination] ∧ length via ≤ 21
       ∧ match provider departure destination via with
         | Some response =>
             route result = Legs response
             ∧ distance result = Summary_Distance response
             ∧ duration result = Summary_DurationSeconds response
         | None =>
             route result = [] ∧ distance result = 0%float
             ∧ duration result = 0%float
         end).
Proof.
  intros Hrun Hw.
  apply local_cases in Hrun as (S & _ & [[Hlt ->]|[Hge ->]]).
  - cbn in Hw. injection Hw as <-. rewrite length_fmap. split; [done|lia].
  - assert (Hw' : w = take 23 (coords <$> S)).
    { unfold route_or_degrade in Hw.
      destruct (call_provider _ _) in Hw; cbn in Hw; congruence. }
    assert (Hlen : 2 ≤ length w ≤ 23).
    { rewrite Hw', length_take, length_fmap. lia. }
    split; [lia|]. intros _.
    destruct (call_provider_split provider w) as (dep & via & dst & Hsplit & Hcall);
      [lia|].
    exists dep, via, dst. split; [done|]. split.
    { rewrite Hsplit in Hlen. cbn in Hlen. rewrite length_app in Hlen.
      cbn in Hlen. lia. }
    unfold route_or_degrade. rewrite <- Hw', Hcall.
    by destruct (provider dep dst via).
Qed.

(** X12. The sequence of a local result has one event for each request
    whose origin resolves and one for each request whose destination
    resolves, cut at 23. *)
Theorem sequence_length (stops : gmap string StopItem)
    (provider : Coord → Coord → list Coord → option ProviderResponse)
    (vehicle_id : string) (requests : list Request) (result : RouteResult)
    (seq : list StopEvent) :
  Local._calculate_route_locally stops provider vehicle_id requests = Ok result →
  sequence result = Some seq →
  length seq
  = 23 `min`
    (length (filter (λ r, is_Some (Cost.get_stop_coords stops (originStopId r)))
               requests)
     + length (filter (λ r, is_Some (Cost.get_stop_coords stops (destStopId r)))
                 requests)).
Proof.
  intros Hrun Hseq.
  apply local_shape in Hrun as (S & HS & _ & Hq).
  rewrite Hq in Hseq. injection Hseq as <-.
  apply build_stops_events in HS as (_ & _ & Hlen).
  by rewrite length_take, Hlen.
Qed.

End SequencingMore.

(** ** The run as a whole: properties *)

Module OrchestrationFacts.

Import Assignment AssignmentFacts AssignmentInvariants AssignmentProperties.
Import Store StoreFacts Sequencing SequencingFacts Orchestration PyFacts.

(** The lists of a run come from its log, and the log from the sorted
    requests. *)
Lemma run_lists_from_log (stops : gmap string StopItem) (mw mt : Z)
    (requests : list Request) (vehicles : list Vehicle)
    (a : gmap string (list Request)) (log : list Placement) :
  assign_with_log stops mw mt requests vehicles = Ok (a, log) →
  lists_from_log a log
  ∧ ∃ rs, rs ≡ₚ requests
          ∧ placed <$> log = filter (origin_resolves stops) rs.
Proof.
  intros Hrun. apply run_unpack in Hrun as (rs & Hrs & Hrun). split.
  - revert Hrun.
    apply (assign_loop_invariant stops mw mt vehicles lists_from_log).
    + intros ? ? ? ? ?. apply lists_from_log_step.
    + intros vid l Hl.
      destruct (initial_assignments vehicles) as (_ & _ & Hnil).
      by rewrite (Hnil _ _ Hl).
  - exists rs. split; [by eapply sorted_perm|].
    by apply assign_loop_log in Hrun.
Qed.

Lemma assigned_from_requests (stops : gmap string StopItem) (mw mt : Z)
    (requests : list Request) (vehicles : list Vehicle)
    (a : gmap string (list Request)) :
  assign_requests_to_vehicles stops mw mt requests vehicles = Ok a →
  ∀ vid l r, a !! vid = Some l → r ∈ l →
    r ∈ requests ∧ origin_resolves stops r.
Proof.
  intros Hres vid l r Hl Hr.
  apply result_unpack in Hres as (log & Hrun).
  apply run_lists_from_log in Hrun as (Hlists & rs & Hperm & Hlog).
  rewrite (Hlists _ _ Hl) in Hr.
  assert (r ∈ placed <$> log) as Hin.
  { apply list_elem_of_fmap in Hr as (d & -> & Hd).
    apply list_elem_of_filter in Hd as [_ Hd].
    apply list_elem_of_fmap. by exists d. }
  rewrite Hlog in Hin. apply list_elem_of_filter in Hin as [Hres Hin].
  split; [by rewrite <- Hperm|done].
Qed.

Lemma local_uniform_returns (stops : gmap string StopItem)
    (provider : Coord → Coord → list Coord → option ProviderResponse)
    (vehicle_id : string) (requests : list Request) :
  uniform Local.pickup_key requests →
  ∃ result,
    Local._calculate_route_locally stops provider vehicle_id requests
    = Ok result.
Proof.
  intros Hu. unfold Local._calculate_route_locally.
  destruct requests as [|r rest]; [by eauto|].
  apply sorted_uniform_returns in Hu as [rs Hrs].
  destruct (build_stops_returns requestId originStopId destStopId
              Local.pickup_key (Cost.get_stop_coords stops) _ _ Hrs)
    as [S HS].
  unfold Local.all_stops_of. rewrite HS. cbn [mbind Exc_bind].
  destruct (length (coords <$> S) <? 2)%nat; [by eauto|].
  destruct (limit_waypoints (coords <$> S) S). by eauto.
Qed.

Lemma remote_uniform_returns (stops : gmap string StopItem)
    (provider : Coord → Coord → list Coord → option ProviderResponse)
    (vehicle_id : string) (requests : list Remote.JsonRequest) :
  uniform Remote.pickup_key requests →
  ∃ result,
    Remote.optimize_route stops provider vehicle_id requests = Ok result.
Proof.
  intros Hu. unfold Remote.optimize_route.
  destruct requests as [|r rest]; [by eauto|].
  apply sorted_uniform_returns in Hu as [rs Hrs].
  destruct (build_stops_returns Remote.j_requestId Remote.j_originStopId
              Remote.j_destStopId Remote.pickup_key
              (Remote.get_stop_coords stops) _ _ Hrs)
    as [S HS].
  unfold Remote.all_stops_of. rewrite HS. cbn [mbind Exc_bind].
  destruct (length (coords <$> S) <? 2)%nat; [by eauto|].
  destruct (limit_waypoints (coords <$> S) S). by eauto.
Qed.

Lemma remote_returns_uniform (stops : gmap string StopItem)
    (provider : Coord → Coord → list Coord → option ProviderResponse)
    (vehicle_id : string) (requests : list Remote.JsonRequest)
    (result : RouteResult) :
  Remote.optimize_route stops provider vehicle_id requests = Ok result →
  uniform Remote.pickup_key requests.
Proof.
  unfold Remote.optimize_route. destruct requests as [|r rest].
  - intros _. left. cbn. lia.
  - intros H. apply bind_Ok in H as (S & HS & _).
    unfold Remote.all_stops_of, build_stops in HS.
    apply bind_Ok in HS as (rs & Hrs & _). by eapply sorted_uniform.
Qed.


(** Requests that all have a known pickup instant sort without error. *)
Lemma known_instants_uniform (l : list Request) :
  (∀ r, r ∈ l → is_Some (instant r)) → uniform Local.pickup_key l.
Proof.
  intros Hl. right. exists CDatetime. intros r Hr.
  destruct (Hl r Hr) as [t Ht]. unfold instant in Ht.
  unfold Local.pickup_key. by destruct (requestedPickupAt r).
Qed.

(** What [get_requests] keeps of the converted requests. *)
Definition selected (start_time end_time : option datetime)
    (requests : list Request) : list Request :=
  match start_time, end_time with
  | None, None => requests
  | _, _ => List.filter (within start_time end_time) requests
  end.


Lemma selected_known_instant (lo hi : option datetime)
    (requests : list Request) (r : Request) :
  lo ≠ None ∨ hi ≠ None →
  r ∈ selected lo hi requests → is_Some (instant r).
Proof.
  intros Hb Hr.
  assert (r ∈ List.filter (within lo hi) requests) as Hin.
  { unfold selected in Hr. destruct lo, hi; try done. by destruct Hb. }
  apply list_elem_of_In, filter_In in Hin as [_ Hw].
  unfold within in Hw. by destruct (instant r).
Qed.

Section WithServices.
Variable strptime_minutes : string → option datetime.
Variable strptime : string → option datetime.
Variable fromtimestamp : Z → Exc datetime.
Variable scan_requests : Exc (list Item).
Variable scan_vehicles : Exc (list Vehicle).
Variable stops_table : gmap string StopItem.
Variable calculate_route : Coord → Coord → list Coord → option ProviderResponse.
Variable create_route_map :
  gmap string (list Request) → gmap string RouteResult → list Vehicle →
  Exc (option string).

Local Abbreviation run :=
  (run_optimization strptime_minutes strptime fromtimestamp scan_requests
     scan_vehicles stops_table calculate_route create_route_map).

(** Whatever path returns, the assignments are those of the assignment
    engine on the filtered requests, an empty list per vehicle, or
    nothing at all. *)
Lemma run_assignments (start_datetime end_datetime : option string)
    (mw mt : Z) (start_time end_time : option datetime)
    (a : gmap string (list Request)) (routes : gmap string RouteResult)
    (map_file : option string) :
  parse_bound strptime_minutes start_datetime = Some start_time →
  parse_bound strptime_minutes end_datetime = Some end_time →
  run start_datetime end_datetime mw mt = (a, routes, map_file) →
  (routes = ∅ ∧ ∀ vid l, a !! vid = Some l → l = [])
  ∨ ∃ items requests vehicles,
      scan_requests = Ok items
      ∧ get_requests strptime fromtimestamp items
          (order_bounds start_time end_time).1
          (order_bounds start_time end_time).2 = Ok requests
      ∧ assign_requests_to_vehicles stops_table mw mt requests vehicles = Ok a
      ∧ routes = route_vehicles stops_table calculate_route a.
Proof.
  intros Hs He. unfold run_optimization. rewrite Hs, He.
  destruct (order_bounds start_time end_time) as [lo hi]; cbn [fst snd].
  assert (Hnothing : nothing = (a, routes, map_file) →
    (routes = ∅ ∧ ∀ vid l, a !! vid = Some l → l = [])
    ∨ ∃ items requests vehicles,
        scan_requests = Ok items
        ∧ get_requests strptime fromtimestamp items lo hi = Ok requests
        ∧ assign_requests_to_vehicles stops_table mw mt requests vehicles = Ok a
        ∧ routes = route_vehicles stops_table calculate_route a).
  { intros [= <- <- _]. left. split; [done|]. intros vid l.
    by rewrite lookup_empty. }
  destruct scan_requests as [items|e]; cbn [mbind Exc_bind]; [|done].
  destruct (get_requests strptime fromtimestamp items lo hi)
    as [requests|e] eqn:Hget; [|done].
  destruct scan_vehicles as [vehicles|e]; [|done].
  destruct requests as [|r0 requests].
  - destruct (create_route_map _ _ _); [|done].
    intros [= <- <- _]. left. split; [done|]. intros vid l Hl.
    destruct (initial_assignments vehicles) as (_ & _ & Hnil). by eapply Hnil.
  - destruct vehicles as [|v0 vehicles]; [done|].
    destruct (assign_requests_to_vehicles _ _ _ _ _) as [a0|e] eqn:Ha; [|done].
    intros H. right. exists items, (r0 :: requests), (v0 :: vehicles).
    destruct (create_route_map _ _ _); injection H as <- <- _; by repeat split.
Qed.


(** X14. With two bounds that parse, every request of every vehicle list
    of the run has a known pickup instant between the smaller and the
    larger bound, and an origin that resolves. *)
Theorem run_respects_window (start_datetime end_datetime : option string)
    (s e : datetime) (mw mt : Z)
    (a : gmap string (list Request)) (routes : gmap string RouteResult)
    (map_file : option string) :
  parse_bound strptime_minutes start_datetime = Some (Some s) →
  parse_bound strptime_minutes end_datetime = Some (Some e) →
  run start_datetime end_datetime mw mt = (a, routes, map_file) →
  ∀ vid l r, a !! vid = Some l → r ∈ l →
    (∃ t, instant r = Some t ∧ (Z.min s e ≤ t ≤ Z.max s e)%Z)
    ∧ origin_resolves stops_table r.
Proof.
  intros Hs He Hrun vid l r Hl Hr.
  apply (run_assignments _ _ _ _ _ _ _ _ _ Hs He) in Hrun
    as [[_ Hnil]|(items & requests & vehicles & _ & Hget & Ha & _)].
  { rewrite (Hnil _ _ Hl) in Hr. by apply elem_of_nil in Hr. }
  destruct (assigned_from_requests _ _ _ _ _ _ Ha _ _ _ Hl Hr) as [Hin Hres].
  split; [|done].
  unfold get_requests in Hget. apply bind_Ok in Hget as (reqs & _ & Hget).
  assert (∃ lo hi, order_bounds (Some s) (Some e) = (Some lo, Some hi)
                   ∧ lo = Z.min s e ∧ hi = Z.max s e) as (lo & hi & Hob & -> & ->).
  { unfold order_bounds. destruct (e <? s)%Z eqn:E.
    - apply Z.ltb_lt in E. eexists _, _. split; [done|]. lia.
    - apply Z.ltb_ge in E. eexists _, _. split; [done|]. lia. }
  rewrite Hob in Hget. cbn [fst snd] in Hget. injection Hget as <-.
  rewrite filter_loop_spec in Hin. cbn [app] in Hin.
  apply list_elem_of_In, filter_In in Hin as [_ Hw].
  unfold within in Hw. destruct (instant r) as [t|]; [|done].
  apply andb_true_iff in Hw as [H1 H2].
  apply Z.leb_le in H1, H2. exists t. split; [done|lia].
Qed.

(** X15. One vehicle's failure does not abort the run: the routes hold an
    entry exactly for the vehicles with at least one request; it is the
    result of the local sequencing when the pickup values of the
    vehicle's requests are of one comparable kind, and the zero route
    without waypoints when they are not. *)
Theorem routes_per_loaded_vehicle (start_datetime end_datetime : option string)
    (mw mt : Z)
    (a : gmap string (list Request)) (routes : gmap string RouteResult)
    (map_file : option string) :
  run start_datetime end_datetime mw mt = (a, routes, map_file) →
  ∀ vid,
    (is_Some (routes !! vid) ↔ ∃ l, a !! vid = Some l ∧ l ≠ [])
    ∧ ∀ l, a !! vid = Some l → l ≠ [] →
        (uniform Local.pickup_key l →
         ∃ result,
           Local._calculate_route_locally stops_table calculate_route vid l
           = Ok result
           ∧ routes !! vid = Some result)
        ∧ (¬ uniform Local.pickup_key l →
           routes !! vid = Some default_route).
Proof.
  intros Hrun vid.
  assert (Hcases :
    (routes = ∅ ∧ ∀ vid l, a !! vid = Some l → l = [])
    ∨ routes = route_vehicles stops_table calculate_route a).
  { destruct (parse_bound strptime_minutes start_datetime) as [st|] eqn:Hs.
    - destruct (parse_bound strptime_minutes end_datetime) as [en|] eqn:He.
      + apply (run_assignments _ _ _ _ _ _ _ _ _ Hs He) in Hrun
          as [?|(? & ? & ? & _ & _ & _ & ?)]; [by left|by right].
      + unfold run_optimization in Hrun. rewrite Hs, He in Hrun.
        injection Hrun as <- <- _. left. split; [done|].
        intros ? ?. by rewrite lookup_empty.
    - unfold run_optimization in Hrun. rewrite Hs in Hrun.
      injection Hrun as <- <- _. left. split; [done|].
      intros ? ?. by rewrite lookup_empty. }
  destruct Hcases as [[-> Hnil]| ->].
  - rewrite lookup_empty. split.
    + split; [by intros [? [=]]|]. intros (l & Hl & Hne).
      by rewrite (Hnil _ _ Hl) in Hne.
    + intros l Hl Hne. by rewrite (Hnil _ _ Hl) in Hne.
  - unfold route_vehicles. rewrite map_lookup_imap.
    unfold Local.optimize_route_with_location_service. split.
    + destruct (a !! vid) as [[|r l]|]; cbn; split.
      * by intros [? [=]].
      * by intros (? & [= <-] & ?).
      * intros _. by eexists.
      * by eauto.
      * by intros [? [=]].
      * by intros (? & [=] & _).
    + intros l Hl Hne. rewrite Hl. cbn. destruct l as [|r l]; [done|]. split.
      * intros Hu.
        destruct (local_uniform_returns stops_table calculate_route vid _ Hu)
          as [result Hres].
        exists result. by rewrite Hres.
      * intros Hnu.
        by rewrite (local_not_uniform_raises stops_table calculate_route vid _ Hnu).
Qed.

(** X16. Status codes of the handler: 400 exactly when the vehicle
    identifier is absent or empty or the request list is absent or empty;
    otherwise 200 with the result of [optimize_route] when the pickup
    values of the requests are of one comparable kind, and 500 with a
    [TypeError] when they are not. *)
Theorem lambda_handler_status (event : Event) :
  let requests := default [] (ev_requests event) in
  match lambda_handler stops_table calculate_route event with
  | Response400 =>
      ev_vehicle_id event = None ∨ ev_vehicle_id event = Some ""
      ∨ requests = []
  | Response200 body =>
      ∃ vid, ev_vehicle_id event = Some vid ∧ vid ≠ "" ∧ requests ≠ []
             ∧ uniform Remote.pickup_key requests
             ∧ Remote.optimize_route stops_table calculate_route vid requests
               = Ok body
  | Response500 err =>
      err = TypeError
      ∧ ∃ vid, ev_vehicle_id event = Some vid ∧ vid ≠ "" ∧ requests ≠ []
               ∧ ¬ uniform Remote.pickup_key requests
  end.
Proof.
  intros requests. unfold lambda_handler. fold requests.
  destruct (ev_vehicle_id event) as [vid|]; [|by left].
  destruct (String.eqb vid "") eqn:Evid.
  { apply String.eqb_eq in Evid as ->. right. by left. }
  apply String.eqb_neq in Evid.
  destruct requests as [|r rest] eqn:Hreq; [by right; right|].
  destruct (Remote.optimize_route stops_table calculate_route vid (r :: rest))
    as [body|err] eqn:Hres.
  - exists vid. repeat split; [done..| |done].
    by eapply remote_returns_uniform.
  - assert (Hnu : ¬ uniform Remote.pickup_key (r :: rest)).
    { intros Hu.
      destruct (remote_uniform_returns stops_table calculate_route vid _ Hu)
        as [result Hok].
      by rewrite Hok in Hres. }
    rewrite (remote_not_uniform_raises stops_table calculate_route vid _ Hnu)
      in Hres.
    injection Hres as <-. split; [done|]. exists vid. by repeat split.
Qed.


(** X18. In a run with at least one bound, every vehicle with requests
    gets the result of the local sequencing: the requests kept by the
    filter all have a known pickup instant, so the sort of the sequencing
    cannot raise and no vehicle is left with the zero route. *)
Theorem bounded_run_routes_every_vehicle
    (start_datetime end_datetime : option string)
    (start_time end_time : option datetime) (mw mt : Z)
    (a : gmap string (list Request)) (routes : gmap string RouteResult)
    (map_file : option string) :
  parse_bound strptime_minutes start_datetime = Some start_time →
  parse_bound strptime_minutes end_datetime = Some end_time →
  start_time ≠ None ∨ end_time ≠ None →
  run start_datetime end_datetime mw mt = (a, routes, map_file) →
  ∀ vid l, a !! vid = Some l → l ≠ [] →
    (∀ r, r ∈ l → is_Some (instant r))
    ∧ ∃ result,
        Local._calculate_route_locally stops_table calculate_route vid l
        = Ok result
        ∧ routes !! vid = Some result.
Proof.
  intros Hs He Hb Hrun vid l Hl Hne.
  apply (run_assignments _ _ _ _ _ _ _ _ _ Hs He) in Hrun
    as [[_ Hnil]|(items & requests & vehicles & _ & Hget & Ha & ->)].
  { by rewrite (Hnil _ _ Hl) in Hne. }
  assert (Hknown : ∀ r, r ∈ l → is_Some (instant r)).
  { intros r Hr.
    destruct (assigned_from_requests _ _ _ _ _ _ Ha _ _ _ Hl Hr) as [Hin _].
    unfold get_requests in Hget. apply bind_Ok in Hget as (reqs & Hconv & Hget).
    assert (Hsel : Ok requests
              = Ok (selected (order_bounds start_time end_time).1
                      (order_bounds start_time end_time).2 reqs)).
    { rewrite <- Hget. unfold selected.
      by destruct (order_bounds start_time end_time).1,
                  (order_bounds start_time end_time).2;
        rewrite ?filter_loop_spec. }
    injection Hsel as ->.
    eapply selected_known_instant; [|exact Hin].
    unfold order_bounds.
    destruct start_time as [s|], end_time as [e|]; cbn;
      try destruct (e <? s)%Z; cbn; try (by left); try (by right).
    by destruct Hb. }
  split; [done|].
  destruct (local_uniform_returns stops_table calculate_route vid l
              (known_instants_uniform l Hknown)) as [result Hres].
  exists result. split; [done|].
  unfold route_vehicles. rewrite map_lookup_imap, Hl. cbn.
  destruct l as [|r l]; [done|].
  unfold Local.optimize_route_with_location_service. by rewrite Hres.
Qed.

End WithServices.

End OrchestrationFacts.

Module RemoteCallFacts.

Import Sequencing SequencingFacts Orchestration OrchestrationFacts PyFacts.

(** The copies sent over have text or nothing where the requests had an
    instant or nothing: they sort as strings. *)
Lemma serialized_uniform (strftime : datetime → string)
    (requests : list Request) :
  (∀ r, r ∈ requests → requestedPickupAt r = Missing ∨ is_Some (instant r)) →
  uniform Remote.pickup_key (serialize strftime <$> requests).
Proof.
  intros Hreq. right. exists CStr. intros j Hj.
  apply list_elem_of_fmap in Hj as (r & -> & Hr).
  unfold Remote.pickup_key, serialize. cbn.
  destruct (Hreq r Hr) as [->|[t Ht]]; [done|].
  unfold instant in Ht. by destruct (requestedPickupAt r).
Qed.

(** X19. When the invocation hands back what the handler returns, the
    call through the remote function never raises.  For a vehicle
    identifier that is not empty and requests whose pickup value is each a
    known instant or absent, it returns what [optimize_route] returns on
    the serialized copies, which sort as strings; with an empty
    identifier, no request, or copies whose pickup values are not of one
    comparable kind, it returns the zero route without waypoints. *)
Theorem remote_call_never_raises
    (stops remote_stops : gmap string StopItem)
    (provider remote_provider :
       Coord → Coord → list Coord → option ProviderResponse)
    (strftime : datetime → string) (invoke : Event → Exc LambdaPayload)
    (vehicle_id : string) (requests : list Request) :
  (∀ event,
     invoke event
     = Ok (Returned (lambda_handler remote_stops remote_provider event))) →
  let call :=
    calculate_route_via_lambda stops provider strftime invoke
      vehicle_id requests in
  let copies := serialize strftime <$> requests in
  (∃ result, call = Ok result)
  ∧ (vehicle_id ≠ "" → requests ≠ [] →
     (∀ r, r ∈ requests →
        requestedPickupAt r = Missing ∨ is_Some (instant r)) →
     call = Remote.optimize_route remote_stops remote_provider
              vehicle_id copies
     ∧ ∃ result, call = Ok result)
  ∧ (vehicle_id = "" ∨ requests = []
     ∨ ¬ uniform Remote.pickup_key copies →
     call = Ok default_route).
Proof.
  intros Hinvoke call copies.
  assert (Hcall : call
    = match lambda_handler remote_stops remote_provider
              {| ev_vehicle_id := Some vehicle_id;
                 ev_requests := Some copies |} with
      | Response200 route_result => Ok route_result
      | _ => Ok default_route
      end).
  { unfold call, calculate_route_via_lambda. rewrite Hinvoke.
    by destruct (lambda_handler _ _ _). }
  assert (Hhandler :
    lambda_handler remote_stops remote_provider
      {| ev_vehicle_id := Some vehicle_id; ev_requests := Some copies |}
    = if String.eqb vehicle_id "" then Response400
      else match copies with
           | [] => Response400
           | _ => match Remote.optimize_route remote_stops remote_provider
                          vehicle_id copies with
                  | Ok route_result => Response200 route_result
                  | Raise e => Response500 e
                  end
           end) by done.
  rewrite Hhandler in Hcall. clear Hhandler. split; [|split].
  - rewrite Hcall. destruct (String.eqb vehicle_id ""); [by eauto|].
    destruct copies; [by eauto|].
    destruct (Remote.optimize_route _ _ _ _); by eauto.
  - intros Hvid Hne Hreq.
    apply String.eqb_neq in Hvid. rewrite Hvid in Hcall.
    destruct (remote_uniform_returns remote_stops remote_provider vehicle_id
                copies (serialized_uniform strftime requests Hreq))
      as [result Hres].
    assert (copies ≠ []) as Hcopies.
    { unfold copies. by destruct requests. }
    destruct copies as [|j copies']; [done|].
    rewrite Hres in Hcall. rewrite Hcall, Hres. by eauto.
  - intros [->|[->|Hnu]].
    + by rewrite Hcall.
    + rewrite Hcall. by destruct (String.eqb vehicle_id "").
    + rewrite Hcall. destruct (String.eqb vehicle_id ""); [done|].
      rewrite (remote_not_uniform_raises remote_stops remote_provider
                 vehicle_id copies Hnu).
      by destruct copies.
Qed.

End RemoteCallFacts.

Module CostFacts2.

Import Cost.

Local Open Scope float_scope.

Section WithStops.
Variable stops_table : gmap string StopItem.





End WithStops.

End CostFacts2.

Module TimeClusteringFacts.

Import Cost.
Import FloatAxioms SpecFloat FloatOps.

Local Open Scope float_scope.

(** [-max(0, x)] is never above zero, whatever [x] is. *)
Lemma neg_max_not_positive (x : float) :
  ((if 0 <? x then - x else 0) <=? 0) = true.
Proof.
  destruct (0 <? x) eqn:Hx; [|reflexivity].
  rewrite ltb_spec in Hx. rewrite leb_spec, opp_spec.
  change (Prim2SF 0) with (S754_zero false) in *.
  destruct (Prim2SF x) as [s|s| |s m e]; try destruct s; try done.
Qed.

(** X21. The time-clustering term can only lower a cost: it is never
    above zero, and it is zero when the vehicle has no request, when the
    pickup instant of the new request is not known, or when none of the
    requests on the vehicle has a known instant. *)
Theorem time_clustering_bonus_not_positive (request : Request)
    (current_requests : list Request) :
  (_calculate_time_clustering_bonus request current_requests <=? 0) = true
  ∧ (current_requests = [] ∨ instant request = None
     ∨ (∀ existing, existing ∈ current_requests → instant existing = None) →
     _calculate_time_clustering_bonus request current_requests = 0).
Proof.
  unfold _calculate_time_clustering_bonus. split.
  - destruct current_requests as [|r0 rest]; [reflexivity|].
    destruct (instant request) as [request_dt|]; [|reflexivity].
    destruct (omap _ (r0 :: rest)) as [|d ds]; [reflexivity|].
    apply neg_max_not_positive.
  - intros [->|[Hreq|Hnone]]; [done| |].
    + rewrite Hreq. by destruct current_requests.
    + destruct current_requests as [|r0 rest]; [done|].
      destruct (instant request) as [request_dt|]; [|done].
      assert (omap (λ existing,
                      existing_dt ← instant existing;
                      Some (Py.float_of_Z (Z.abs (request_dt - existing_dt))
                            / 1000000 / 60))
                   (r0 :: rest) = []) as ->; [|done].
      induction (r0 :: rest) as [|e l IH]; [done|]. cbn.
      rewrite (Hnone e) by by left. cbn. apply IH.
      intros e' He'. apply Hnone. by right.
Qed.

End TimeClusteringFacts.

Module FallbackAgreement.

Import Sequencing SequencingFacts Orchestration PyFacts.

Definition exc_map {A B : Type} (g : A → B) (m : Exc A) : Exc B :=
  match m with
  | Ok a => Ok (g a)
  | Raise e => Raise e
  end.

(** The stop ordering commutes with a change of request representation
    that keeps the identifier and the stops, under which the keys compare
    the same way and the stops resolve the same way. *)
Section Naturality.
Context {R R' : Type}.
Variable f : R → R'.
Variables (rid : R → option string) (origin dest : R → string).
Variables (rid' : R' → option string) (origin' dest' : R' → string).
Variables (key : R → sort_key) (key' : R' → sort_key).
Variables (resolve resolve' : string → option Coord).
Hypothesis rid_kept : ∀ x, rid' (f x) = rid x.
Hypothesis origin_kept : ∀ x, origin' (f x) = origin x.
Hypothesis dest_kept : ∀ x, dest' (f x) = dest x.

Definition same_order (l : list R) : Prop :=
  ∀ x y, x ∈ l → y ∈ l →
    py_lt (key' (f x)) (key' (f y)) = py_lt (key x) (key y).

Definition same_stops (l : list R) : Prop :=
  ∀ x, x ∈ l →
    resolve' (origin x) = resolve (origin x)
    ∧ resolve' (dest x) = resolve (dest x).

Lemma insert_fmap (x : R) (l : list R) :
  (∀ y, y ∈ l → py_lt (key' (f x)) (key' (f y)) = py_lt (key x) (key y)) →
  Py.insert py_lt key' (f x) (f <$> l)
  = exc_map (fmap f) (Py.insert py_lt key x l).
Proof.
  induction l as [|y l IH]; intros H; cbn; [done|].
  rewrite H by by left.
  destruct (py_lt (key x) (key y)) as [[|]|e]; cbn; [done| |done].
  rewrite IH by (intros; apply H; by right).
  by destruct (Py.insert py_lt key x l).
Qed.

Lemma sorted_from_fmap (l : list R) :
  ∀ acc, same_order (acc ++ l) →
    Py.sorted_from py_lt key' (f <$> acc) (f <$> l)
    = exc_map (fmap f) (Py.sorted_from py_lt key acc l).
Proof.
  induction l as [|x l IH]; intros acc H; cbn; [done|].
  rewrite insert_fmap.
  2:{ intros y Hy. apply H; apply elem_of_app; [right; by left|by left]. }
  destruct (Py.insert py_lt key x acc) as [acc'|e] eqn:Hins; cbn; [|done].
  apply IH. pose proof (insert_perm _ _ _ _ _ Hins) as Hperm.
  assert (Hsub : ∀ z, z ∈ acc' ++ l → z ∈ acc ++ x :: l).
  { intros z. rewrite Hperm, !elem_of_app, !elem_of_cons. tauto. }
  intros y z Hy Hz. apply H; by apply Hsub.
Qed.

Lemma sorted_fmap (l : list R) :
  same_order l →
  Py.sorted py_lt key' (f <$> l) = exc_map (fmap f) (Py.sorted py_lt key l).
Proof. intros H. by apply (sorted_from_fmap l []). Qed.

Lemma add_pickups_fmap (rs : list R) :
  same_stops rs →
  ∀ i acc po,
    add_pickups rid' origin' resolve' i (f <$> rs) acc po
    = add_pickups rid origin resolve i rs acc po.
Proof.
  induction rs as [|r rs IH]; intros H i acc po; cbn; [done|].
  rewrite origin_kept, rid_kept, (proj1 (H r ltac:(by left))).
  assert (same_stops rs) as Hrs by (intros x Hx; apply H; by right).
  destruct (resolve (origin r)); by apply IH.
Qed.

Lemma add_dropoffs_fmap (rs : list R) (po : gmap (option string) nat) :
  same_stops rs →
  ∀ acc,
    add_dropoffs rid' dest' resolve' (f <$> rs) po acc
    = add_dropoffs rid dest resolve rs po acc.
Proof.
  induction rs as [|r rs IH]; intros H acc; cbn; [done|].
  rewrite dest_kept, rid_kept, (proj2 (H r ltac:(by left))).
  assert (same_stops rs) as Hrs by (intros x Hx; apply H; by right).
  destruct (resolve (dest r)); by apply IH.
Qed.

Lemma build_stops_fmap (l : list R) :
  same_order l → same_stops l →
  build_stops rid' origin' dest' key' resolve' (f <$> l)
  = build_stops rid origin dest key resolve l.
Proof.
  intros Ho Hs. unfold build_stops. rewrite (sorted_fmap l Ho).
  destruct (Py.sorted py_lt key l) as [rs|e] eqn:Hrs; cbn; [|done].
  assert (same_stops rs) as Hrs'.
  { intros x Hx. apply Hs. by rewrite <- (sorted_perm _ _ _ _ Hrs). }
  rewrite (add_pickups_fmap rs Hrs').
  destruct (add_pickups rid origin resolve 0 rs [] ∅) as [P po].
  by rewrite (add_dropoffs_fmap rs po Hrs').
Qed.

End Naturality.

(** X22. The local fallback computes what the remote calculator computes.
    For requests with known pickup instants whose texts compare as the
    instants do, and whose stops resolve the same way on both sides, the
    remote calculator builds from the serialized copies the stop list that
    the local function builds from the requests; when that list has two
    stops or more, both functions return the same result with the same
    routing provider. *)
Theorem local_fallback_agrees_with_remote
    (stops remote_stops : gmap string StopItem)
    (provider : Coord → Coord → list Coord → option ProviderResponse)
    (strftime : datetime → string)
    (vehicle_id : string) (requests : list Request) :
  (∀ r, r ∈ requests → is_Some (instant r)) →
  (∀ r r' t t', r ∈ requests → r' ∈ requests →
     instant r = Some t → instant r' = Some t' →
     String.ltb (strftime t) (strftime t') = (t <? t')%Z) →
  (∀ r, r ∈ requests →
     Remote.get_stop_coords remote_stops (originStopId r)
     = Cost.get_stop_coords stops (originStopId r)
     ∧ Remote.get_stop_coords remote_stops (destStopId r)
       = Cost.get_stop_coords stops (destStopId r)) →
  Remote.all_stops_of remote_stops (serialize strftime <$> requests)
  = Local.all_stops_of stops requests
  ∧ ∀ S, Local.all_stops_of stops requests = Ok S → 2 ≤ length S →
      Remote.optimize_route remote_stops provider vehicle_id
        (serialize strftime <$> requests)
      = Local._calculate_route_locally stops provider vehicle_id requests.
Proof.
  intros Hknown Horder Hstops.
  assert (Hbuild :
    Remote.all_stops_of remote_stops (serialize strftime <$> requests)
    = Local.all_stops_of stops requests).
  { unfold Remote.all_stops_of, Local.all_stops_of.
    apply (build_stops_fmap (serialize strftime)); try done.
    intros x y Hx Hy.
    destruct (Hknown x Hx) as [t Ht], (Hknown y Hy) as [t' Ht'].
    pose proof (Horder x y t t' Hx Hy Ht Ht') as Hlt.
    unfold Remote.pickup_key, Local.pickup_key, serialize, instant in *.
    cbn. destruct (requestedPickupAt x), (requestedPickupAt y); try done.
    injection Ht as ->. injection Ht' as ->. cbn. by rewrite Hlt. }
  split; [done|]. intros S HS Hlen.
  unfold Remote.optimize_route, Local._calculate_route_locally.
  rewrite Hbuild, HS. cbn [mbind Exc_bind].
  destruct requests as [|r rest].
  { unfold Local.all_stops_of, build_stops in HS. cbn in HS.
    injection HS as <-. cbn in Hlen. lia. }
  cbn [fmap list_fmap].
  replace (length (coords <$> S) <? 2)%nat with false; [done|].
  symmetry. apply Nat.ltb_ge. by rewrite length_fmap.
Qed.

End FallbackAgreement.

(** * Further scenarios *)

Module Cases.

Import Assignment AssignmentFacts AssignmentProperties GreedyChoice.
Import Sequencing SequencingFacts SequencingMore Store StoreFacts.
Import Orchestration OrchestrationFacts RemoteCallFacts FallbackAgreement.
Import PyFacts Scenario.

(** One vehicle of default capacity takes the two first requests. *)
Definition pair_log : list Placement :=
  [ {| placed := r1; placed_on := "B"; forced := false; feasible_seen := true |};
    {| placed := r2; placed_on := "B"; forced := false; feasible_seen := true |} ].

Lemma pair_outcome :
  assign_with_log stops 15%Z 20%Z [r1; r2] [bus_B]
  = Ok (<["B" := [r1; r2]]> ∅, pair_log).
Proof. vm_compute. reflexivity. Qed.

Lemma pair_no_fallback : no_fallback_on "B" pair_log.
Proof.
  intros d Hd _.
  repeat (apply elem_of_cons in Hd as [->|Hd]; [reflexivity|]).
  by apply elem_of_nil in Hd.
Qed.


Lemma travel_bound_witness :
  length [r1; r2] ≤ 1 ∨ (6 * Z.of_nat (length [r1; r2]) ≤ 20)%Z.
Proof.
  apply (travel_bound_unless_fallback stops 15%Z 20%Z [r1; r2] [bus_B] _ _
           pair_outcome "B" [r1; r2] eq_refl pair_no_fallback).
Defined.

Lemma pickup_order_witness :
  StronglySorted (λ x y, (pickup_time x ≤ pickup_time y)%Z) [r1; r3].
Proof.
  apply (lists_in_pickup_order stops 15%Z 20%Z requests fleet
           (<["A" := [r1; r3]]> (<["B" := [r2]]> ∅))) with (vid := "A").
  - vm_compute. reflexivity.
  - reflexivity.
Defined.

Lemma empty_fleet_witness :
  assign_requests_to_vehicles stops 15%Z 20%Z requests [] = Raise ValueError.
Proof.
  apply (proj1 (empty_fleet stops 15%Z 20%Z requests)).
  left. by eexists.
Defined.

Lemma unresolvable_destination_witness :
  forced {| placed := r3; placed_on := "A"; forced := true;
            feasible_seen := true |} = true.
Proof.
  apply (unresolvable_destination_falls_back stops 15%Z 20%Z requests fleet
           _ _ outcome).
  - right; right; left.
  - reflexivity.
Defined.

Lemma fallback_choice_witness :
  ∃ l1 v l2 l,
    fleet = l1 ++ v :: l2
    ∧ "A" = vehicleId v
    ∧ (<["A" := [r1]]> (<["B" := [r2]]> ∅) : gmap string (list Request))
        !! vehicleId v = Some l
    ∧ (<["A" := [r1; r3]]> (<["B" := [r2]]> ∅) : gmap string (list Request))
      = <[vehicleId v := l ++ [r3]]> (<["A" := [r1]]> (<["B" := [r2]]> ∅))
    ∧ (∀ x lx, x ∈ l1 →
         (<["A" := [r1]]> (<["B" := [r2]]> ∅) : gmap string (list Request))
           !! vehicleId x = Some lx → length l < length lx)
    ∧ (∀ x lx, x ∈ l2 →
         (<["A" := [r1]]> (<["B" := [r2]]> ∅) : gmap string (list Request))
           !! vehicleId x = Some lx → length l ≤ length lx).
Proof.
  apply (fallback_picks_first_least_loaded stops 15%Z 20%Z fleet
           (<["A" := [r1]]> (<["B" := [r2]]> ∅))
           (<["A" := [r1; r3]]> (<["B" := [r2]]> ∅)) [] r3
           {| placed := r3; placed_on := "A"; forced := true;
              feasible_seen := true |}).
  - vm_compute. reflexivity.
  - reflexivity.
Defined.


Lemma sequence_sorted_witness :
  ascending priority stops_of_A_and_B
  ∧ ∀ e, e ∈ stops_of_A_and_B →
      Cost.get_stop_coords stops (stopId e) = Some (coords e).
Proof.
  apply (proj1 sequence_sorted_and_resolved stops provider_down "A" [r1; r2]
           degraded_route stops_of_A_and_B).
  - exact local_run.
  - reflexivity.
Defined.

Lemma pickups_first_witness : 1 < 2.
Proof.
  apply (proj1 pickups_first_up_to_100_requests stops provider_down "A"
           [r1; r2] degraded_route stops_of_A_and_B local_run eq_refl
           ltac:(cbn; lia) 1 2
           {| stop_kind := pickup; stop_requestId := Some "r2"; stopId := "S3";
              coords := (3%float, 3%float); priority := 1 |}
           {| stop_kind := dropoff; stop_requestId := Some "r1"; stopId := "S2";
              coords := (2%float, 2%float); priority := 100 |});
    reflexivity.
Defined.

Lemma local_returns_witness :
  ∃ result,
    Local._calculate_route_locally stops provider_down "A" [r1; r2]
    = Ok result.
Proof.
  apply (proj2 (proj1 (local_returns_iff_uniform stops provider_down "A"
                         [r1; r2]))).
  right. exists CDatetime. intros x Hx.
  repeat (apply elem_of_cons in Hx as [->|Hx]; [reflexivity|]).
  by apply elem_of_nil in Hx.
Defined.

(** A provider that answers every call with one leg. *)
Definition the_leg : Leg :=
  {| leg_distance := 4200%float; leg_duration := 600%float;
     leg_geometry := [(1%float, 1%float); (2%float, 2%float)] |}.

Definition one_leg : ProviderResponse :=
  {| Legs := [the_leg]; Summary_Distance := 4200%float;
     Summary_DurationSeconds := 600%float |}.

Definition provider_up : Coord → Coord → list Coord → option ProviderResponse :=
  λ _ _ _, Some one_leg.

Definition routed : RouteResult :=
  {| route := [the_leg]; distance := 4200%float; duration := 600%float;
     waypoints := Some (coords <$> stops_of_A_and_B);
     sequence := Some stops_of_A_and_B |}.

Lemma routed_run :
  Local._calculate_route_locally stops provider_up "A" [r1; r2] = Ok routed.
Proof. vm_compute. reflexivity. Qed.

Lemma route_from_provider_witness :
  ∃ departure via destination,
    coords <$> stops_of_A_and_B = departure :: via ++ [destination]
    ∧ length via ≤ 21
    ∧ match provider_up departure destination via with
      | Some response =>
          route routed = Legs response
          ∧ distance routed = Summary_Distance response
          ∧ duration routed = Summary_DurationSeconds response
      | None =>
          route routed = [] ∧ distance routed = 0%float
          ∧ duration routed = 0%float
      end.
Proof.
  apply (proj2 (route_from_provider stops provider_up "A" [r1; r2] routed
                  (coords <$> stops_of_A_and_B) routed_run eq_refl)).
  cbn. lia.
Defined.

Lemma sequence_length_witness :
  length stops_of_A_and_B
  = 23 `min`
    (length (filter (λ r, is_Some (Cost.get_stop_coords stops (originStopId r)))
               [r1; r2])
     + length (filter (λ r, is_Some (Cost.get_stop_coords stops (destStopId r)))
                 [r1; r2])).
Proof.
  apply (sequence_length stops provider_down "A" [r1; r2] degraded_route
           stops_of_A_and_B local_run eq_refl).
Defined.

(** *** A whole run *)

(** The bounds of the run are five minutes either side of the one dated
    item of the store. *)
Definition strptime_minutes (s : string) : option datetime :=
  if String.eqb s "2025-09-21 07:55" then Some (-300000000)%Z
  else if String.eqb s "2025-09-21 08:05" then Some 300000000%Z
  else None.

Definition create_route_map (assignments : gmap string (list Request))
    (routes : gmap string RouteResult) (vehicles : list Vehicle)
    : Exc (option string) :=
  Ok (Some "route_map.html").

Definition run (start_datetime end_datetime : option string) : RunResult :=
  run_optimization strptime_minutes strptime fromtimestamp (Ok items)
    (Ok fleet) stops provider_down create_route_map
    start_datetime end_datetime 15%Z 20%Z.

Definition the_run : RunResult :=
  run (Some "2025-09-21 07:55") (Some "2025-09-21 08:05").

Lemma the_run_result : the_run = (the_run.1.1, the_run.1.2, the_run.2).
Proof. vm_compute. reflexivity. Qed.

Lemma the_run_A : the_run.1.1 !! "A" = Some [r1].
Proof. vm_compute. reflexivity. Qed.


Lemma run_window_witness :
  (∃ t, instant r1 = Some t
        ∧ (Z.min (-300000000) 300000000 ≤ t ≤ Z.max (-300000000) 300000000)%Z)
  ∧ origin_resolves stops r1.
Proof.
  apply (run_respects_window strptime_minutes strptime fromtimestamp
           (Ok items) (Ok fleet) stops provider_down create_route_map
           (Some "2025-09-21 07:55") (Some "2025-09-21 08:05")
           (-300000000)%Z 300000000%Z 15%Z 20%Z _ _ _
           eq_refl eq_refl the_run_result "A" [r1] r1 the_run_A).
  left.
Defined.

Lemma routes_witness :
  ∃ result,
    Local._calculate_route_locally stops provider_down "A" [r1] = Ok result
    ∧ the_run.1.2 !! "A" = Some result.
Proof.
  apply (proj2 (routes_per_loaded_vehicle strptime_minutes strptime
                  fromtimestamp (Ok items) (Ok fleet) stops provider_down
                  create_route_map
                  (Some "2025-09-21 07:55") (Some "2025-09-21 08:05")
                  15%Z 20%Z _ _ _ the_run_result "A") [r1] the_run_A).
  - discriminate.
  - left. cbn. lia.
Defined.


Lemma bounded_run_witness :
  (∀ r, r ∈ [r1] → is_Some (instant r))
  ∧ ∃ result,
      Local._calculate_route_locally stops provider_down "A" [r1] = Ok result
      ∧ the_run.1.2 !! "A" = Some result.
Proof.
  apply (bounded_run_routes_every_vehicle strptime_minutes strptime
           fromtimestamp (Ok items) (Ok fleet) stops provider_down
           create_route_map
           (Some "2025-09-21 07:55") (Some "2025-09-21 08:05")
           (Some (-300000000)%Z) (Some 300000000%Z) 15%Z 20%Z _ _ _
           eq_refl eq_refl ltac:(by left) the_run_result "A" [r1] the_run_A).
  discriminate.
Defined.

(** *** The remote calculator *)

Definition strftime (t : datetime) : string :=
  if (t =? 0)%Z then "2025-09-21 08:00:00" else "2025-09-21 08:01:00".

(** The invocation reaches a handler working on the same stops. *)
Definition invoke (event : Event) : Exc LambdaPayload :=
  Ok (Returned (lambda_handler stops provider_down event)).

(** A dated request next to one without the pickup field: the remote
    call sorts their copies as strings and returns. *)
Lemma remote_call_witness :
  calculate_route_via_lambda stops provider_down strftime invoke "A" [r1; r0]
  = Remote.optimize_route stops provider_down "A"
      (serialize strftime <$> [r1; r0])
  ∧ ∃ result,
      calculate_route_via_lambda stops provider_down strftime invoke "A"
        [r1; r0] = Ok result.
Proof.
  apply (remote_call_never_raises stops stops provider_down provider_down
           strftime invoke "A" [r1; r0] (λ event, eq_refl)).
  - discriminate.
  - discriminate.
  - intros r Hr.
    apply elem_of_cons in Hr as [->|Hr]; [right; by eexists|].
    apply elem_of_cons in Hr as [->|Hr]; [by left|].
    by apply elem_of_nil in Hr.
Defined.

Lemma fallback_agreement_witness :
  Remote.optimize_route stops provider_down "A" (serialize strftime <$> [r1; r2])
  = Local._calculate_route_locally stops provider_down "A" [r1; r2].
Proof.
  apply (proj2 (local_fallback_agrees_with_remote stops stops provider_down
                  strftime "A" [r1; r2]
                  ltac:(intros r Hr;
                        repeat (apply elem_of_cons in Hr as [->|Hr];
                                [by eexists|]);
                        by apply elem_of_nil in Hr)
                  ltac:(intros r r' t t' Hr Hr' Ht Ht';
                        repeat (apply elem_of_cons in Hr as [->|Hr]);
                        try (by apply elem_of_nil in Hr);
                        repeat (apply elem_of_cons in Hr' as [->|Hr']);
                        try (by apply elem_of_nil in Hr');
                        injection Ht as <-; injection Ht' as <-; reflexivity)
                  ltac:(intros r Hr;
                        repeat (apply elem_of_cons in Hr as [->|Hr];
                                [split; vm_compute; reflexivity|]);
                        by apply elem_of_nil in Hr))
           stops_of_A_and_B).
  - vm_compute. reflexivity.
  - cbn. lia.
Defined.

End Cases.
